(** * QuickQanava and QuickGeoGL: arrow caps, node properties, notifier

    A shallow embedding of
      - [qgl::Arrow]            (QuickGeoGL/src/qglArrow.cpp),
      - [qan::Node]'s inline property setters (src/qanNode.h),
      - [qan::ProgressNotifier]'s constructor (src/qanProgressNotifier.cpp).

    Qt's [qreal] is a build-time choice of floating type, so the arithmetic
    is kept behind an interface ([QReal]).  Two instances are given: IEEE
    binary64 (Rocq's primitive floats), on which the model runs, and the
    real numbers, where the textbook identities hold. *)

From Stdlib Require Import Bool List ZArith NArith String.
From Stdlib Require Import Uint63 Floats Reals Lra Lia.
Import ListNotations.

Set Implicit Arguments.

(** ** The arithmetic of [qreal] *)

Declare Scope qreal_scope.
Delimit Scope qreal_scope with q.

Class QReal (qreal : Type) : Type := {
  qadd : qreal -> qreal -> qreal;
  qsub : qreal -> qreal -> qreal;
  qmul : qreal -> qreal -> qreal;
  qdiv : qreal -> qreal -> qreal;
  qopp : qreal -> qreal;
  (** [a < b] and [a <= b] of C++ *)
  qltb : qreal -> qreal -> bool;
  qleb : qreal -> qreal -> bool;
  (** [qSqrt] and [std::acos] *)
  qsqrt : qreal -> qreal;
  qacos : qreal -> qreal;
  (** an integer literal, or an integral literal such as [2.] and [180] *)
  lit : Z -> qreal;
  (** the literal [0.0001] *)
  lit_0_0001 : qreal;
  (** the constant [Pi] that qglArrow.h declares (the header is not part of
      the sources at hand, so its value stays a parameter) *)
  Pi : qreal
}.

Infix "+" := qadd : qreal_scope.
Infix "-" := qsub : qreal_scope.
Infix "*" := qmul : qreal_scope.
Infix "/" := qdiv : qreal_scope.
Notation "- x" := (qopp x) : qreal_scope.
Infix "<?" := qltb : qreal_scope.
Infix "<=?" := qleb : qreal_scope.
Notation "# z" := (lit z%Z) (at level 1, format "# z") : qreal_scope.

(** What the comparisons of any floating type and of the reals share. *)
Class QRealOrder {qreal : Type} (Q : QReal qreal) : Prop := {
  qltb_irrefl : forall a : qreal, (a <? a)%q = false;
  qltb_asym : forall a b : qreal, (a <? b)%q = true -> (b <? a)%q = false;
  qleb_not_gt : forall a b : qreal, (a <=? b)%q = true -> (b <? a)%q = false;
  qltb_not_ge : forall a b : qreal, (a <? b)%q = true -> (b <=? a)%q = false
}.

(** Exact arithmetic: the identities the cap polygon relies on, and a total
    order.  They hold in the reals; in a floating type they fail at
    infinities, NaN and signed zeros. *)
Class QRealExact {qreal : Type} (Q : QReal qreal) : Prop := {
  qsub_0_l : forall s : qreal, (#0 - s)%q = (- s)%q;
  qadd_0_l : forall s : qreal, (#0 + s)%q = s;
  qadd_opp_l : forall a : qreal, (- a + a)%q = #0%q;
  qmul_comm : forall a b : qreal, (a * b)%q = (b * a)%q;
  qleb_total : forall a b : qreal, (a <? b)%q = false -> (b <=? a)%q = true
}.

(** The arithmetic [Q] with another quotient in place of [/]: a probe for
    which quotients a computation consults. *)
Definition with_qdiv {qreal : Type} (Q : QReal qreal)
    (div' : qreal -> qreal -> qreal) : QReal qreal := {|
  qadd := @qadd _ Q;
  qsub := @qsub _ Q;
  qmul := @qmul _ Q;
  qdiv := div';
  qopp := @qopp _ Q;
  qltb := @qltb _ Q;
  qleb := @qleb _ Q;
  qsqrt := @qsqrt _ Q;
  qacos := @qacos _ Q;
  lit := @lit _ Q;
  lit_0_0001 := @lit_0_0001 _ Q;
  Pi := @Pi _ Q
|}.

(** *** IEEE binary64 *)

Module Binary64.

#[local] Set Warnings "-inexact-float".

(** [std::acos] is the C library's.  This is the algorithm of fdlibm's
    e_acos.c, which FreeBSD, musl and newlib ship, constant by constant and
    branch by branch; its result is within one unit in the last place of the
    arc cosine, so another C library may differ from it in the last bit.
    No theorem depends on its accuracy. *)
Definition pi : float := 3.14159265358979311600e+00%float.
Definition pio2_hi : float := 1.57079632679489655800e+00%float.
Definition pio2_lo : float := 6.12323399573676603587e-17%float.
Definition pS0 : float := 1.66666666666666657415e-01%float.
Definition pS1 : float := (-3.25565818622400915405e-01)%float.
Definition pS2 : float := 2.01212532134862925881e-01%float.
Definition pS3 : float := (-4.00555345006794114027e-02)%float.
Definition pS4 : float := 7.91534994289814532176e-04%float.
Definition pS5 : float := 3.47933107596021167570e-05%float.
Definition qS1 : float := (-2.40339491173441421878e+00)%float.
Definition qS2 : float := 2.02094576023350569471e+00%float.
Definition qS3 : float := (-6.88283971605453293030e-01)%float.
Definition qS4 : float := 7.70381505559019352791e-02%float.

(** [SET_LOW_WORD( df, 0 )] on a positive normal number: the low 32 bits
    of the 53-bit significand are cleared. *)
Definition SET_LOW_WORD_0 (s : float) : float :=
  let (m, e) := frshiftexp s in
  let hi := Uint63.lsl (Uint63.lsr (normfr_mantissa m) 32) 32 in
  ldshiftexp (of_uint63 hi) (Uint63.sub e 53).

Definition acos (x : float) : float :=
  (if PrimFloat.is_nan x || (1 <=? abs x) then       (* |x| >= 1 or NaN *)
     if x =? 1 then 0
     else if x =? -1 then pi + 2 * pio2_lo
     else (x - x) / (x - x)
   else if abs x <? 0.5 then
     if abs x <? 0x1.00001p-57 then pio2_hi + pio2_lo
     else
       let z := x * x in
       let p := z*(pS0+z*(pS1+z*(pS2+z*(pS3+z*(pS4+z*pS5))))) in
       let q := 1+z*(qS1+z*(qS2+z*(qS3+z*qS4))) in
       let r := p / q in
       pio2_hi - (x - (pio2_lo - r * x))
   else if x <? 0 then                                 (* x < -0.5 *)
     let z := (1 + x) * 0.5 in
     let p := z*(pS0+z*(pS1+z*(pS2+z*(pS3+z*(pS4+z*pS5))))) in
     let q := 1+z*(qS1+z*(qS2+z*(qS3+z*qS4))) in
     let s := PrimFloat.sqrt z in
     let r := p / q in
     let w := r * s - pio2_lo in
     pi - 2 * (s + w)
   else                                                (* x > 0.5 *)
     let z := (1 - x) * 0.5 in
     let s := PrimFloat.sqrt z in
     let df := SET_LOW_WORD_0 s in
     let c := (z - df * df) / (s + df) in
     let p := z*(pS0+z*(pS1+z*(pS2+z*(pS3+z*(pS4+z*pS5))))) in
     let q := 1+z*(qS1+z*(qS2+z*(qS3+z*qS4))) in
     let r := p / q in
     let w := r * s + c in
     2 * (df + w))%float.

(** The constant [Pi] of qglArrow.cpp is defined outside the sources; in
    binary64 it is taken to be the double nearest to pi. *)
Definition M_PI : float := 0x1.921fb54442d18p+1%float.

(** A C++ integer literal converted to [double]. *)
Definition of_Z (z : Z) : float :=
  if (z <? 0)%Z then (- of_uint63 (Uint63.of_Z (- z)))%float
  else of_uint63 (Uint63.of_Z z).

(** Finite and not a zero; finite.  Read off the IEEE datum of the float. *)
Definition finite_nonzero (f : float) : bool :=
  match Prim2SF f with S754_finite _ _ _ => true | _ => false end.
Definition finite (f : float) : bool :=
  match Prim2SF f with
  | S754_finite _ _ _ | S754_zero _ => true
  | _ => false
  end.

#[global] Instance binary64 : QReal float := {|
  qadd := PrimFloat.add;
  qsub := PrimFloat.sub;
  qmul := PrimFloat.mul;
  qdiv := PrimFloat.div;
  qopp := PrimFloat.opp;
  qltb := PrimFloat.ltb;
  qleb := PrimFloat.leb;
  qsqrt := PrimFloat.sqrt;
  qacos := acos;
  lit := of_Z;
  lit_0_0001 := 0.0001%float;
  Pi := M_PI
|}.

End Binary64.

(** *** The real numbers *)

Module Exact.

Definition Rltb (a b : R) : bool := if Rlt_dec a b then true else false.
Definition Rleb (a b : R) : bool := if Rle_dec a b then true else false.

#[global] Instance reals : QReal R := {|
  qadd := Rplus;
  qsub := Rminus;
  qmul := Rmult;
  qdiv := Rdiv;
  qopp := Ropp;
  qltb := Rltb;
  qleb := Rleb;
  qsqrt := sqrt;
  qacos := Ratan.acos;
  lit := IZR;
  lit_0_0001 := (1 / 10000)%R;
  Pi := PI
|}.

End Exact.

(** ** Qt value types *)

(** [QColor], as its red, green, blue and alpha channels. *)
Record QColor : Type := mkQColor { red : N; green : N; blue : N; alpha : N }.

Definition QColor_eqb (c d : QColor) : bool :=
  (red c =? red d)%N && (green c =? green d)%N
  && (blue c =? blue d)%N && (alpha c =? alpha d)%N.

(** [QQuickItem::TransformOrigin]. *)
Inductive TransformOrigin : Type :=
  | TopLeft | Top | TopRight | Left | Center | Right
  | BottomLeft | Bottom | BottomRight.

(** [Arrow::CapStyle]. *)
Inductive CapStyle : Type := NoCap | ArrowCap | CircleCap.

(** The signals [Arrow] emits. *)
Inductive ArrowSignal : Type :=
  | colorChanged | p1Changed | p2Changed | lineWidthChanged
  | p1CapStyleChanged | p2CapStyleChanged
  | p1CapSizeChanged | p2CapSizeChanged.

Section Model.

Variable qreal : Type.
Context {Q : QReal qreal}.
Local Open Scope qreal_scope.

(** [QPointF]: [x()] and [y()]. *)
Record QPointF : Type := mkQPointF { x : qreal; y : qreal }.

(** [QLineF{ p1, p2 }] with the members [updateGeometry] calls, as
    qline.h and qline.cpp of Qt 5 define them. *)
Record QLineF : Type := mkQLineF { pt1 : QPointF; pt2 : QPointF }.

Definition dx (l : QLineF) : qreal := x (pt2 l) - x (pt1 l).
Definition dy (l : QLineF) : qreal := y (pt2 l) - y (pt1 l).

Definition length (l : QLineF) : qreal :=
  let lx := x (pt2 l) - x (pt1 l) in
  let ly := y (pt2 l) - y (pt1 l) in
  qsqrt (lx * lx + ly * ly).

Definition pointAt (l : QLineF) (t : qreal) : QPointF :=
  mkQPointF (x (pt1 l) + (x (pt2 l) - x (pt1 l)) * t)
            (y (pt1 l) + (y (pt2 l) - y (pt1 l)) * t).

(** [QSizeF]: width and height. *)
Record QSizeF : Type := mkQSizeF { width : qreal; height : qreal }.

(** [qMax], [qMin], [qAbs] and [qFuzzyCompare(double, double)] of
    qglobal.h. *)
Definition qMax (a b : qreal) : qreal := if a <? b then b else a.
Definition qMin (a b : qreal) : qreal := if a <? b then a else b.
Definition qAbs (t : qreal) : qreal := if #0 <=? t then t else - t.
Definition qFuzzyCompare (p1 p2 : qreal) : bool :=
  qAbs (p1 - p2) * #1000000000000 <=? qMin (qAbs p1) (qAbs p2).

(** ** qgl::Arrow *)

(** Modelled from the spec: qglLine.h is not among the sources.  The
    internal [qgl::Line] is the rendered segment; it is kept as the record
    of the properties the Arrow writes, each setter storing its argument. *)
Record Line : Type := mkLine {
  Line_p1 : QPointF;
  Line_p2 : QPointF;
  Line_color : QColor;
  Line_lineWidth : qreal
}.

Definition Line_setP1 (p : QPointF) (l : Line) : Line :=
  mkLine p (Line_p2 l) (Line_color l) (Line_lineWidth l).
Definition Line_setP2 (p : QPointF) (l : Line) : Line :=
  mkLine (Line_p1 l) p (Line_color l) (Line_lineWidth l).
Definition Line_setColor (c : QColor) (l : Line) : Line :=
  mkLine (Line_p1 l) (Line_p2 l) c (Line_lineWidth l).
Definition Line_setLineWidth (w : qreal) (l : Line) : Line :=
  mkLine (Line_p1 l) (Line_p2 l) (Line_color l) w.

(** Modelled from the spec: qglConvexPolygon.h is not among the sources.
    A cap is a polygon decoration item at a line endpoint; it is kept as the
    record of the [QQuickItem] and polygon properties the Arrow writes. *)
Record ConvexPolygon : Type := mkConvexPolygon {
  item_x : qreal;
  item_y : qreal;
  item_transformOrigin : TransformOrigin;
  item_rotation : qreal;
  item_visible : bool;
  item_borderWidth : qreal;
  item_color : QColor;
  item_polygon : list QPointF
}.

Definition setX (v : qreal) (i : ConvexPolygon) : ConvexPolygon :=
  mkConvexPolygon v (item_y i) (item_transformOrigin i) (item_rotation i)
    (item_visible i) (item_borderWidth i) (item_color i) (item_polygon i).
Definition setY (v : qreal) (i : ConvexPolygon) : ConvexPolygon :=
  mkConvexPolygon (item_x i) v (item_transformOrigin i) (item_rotation i)
    (item_visible i) (item_borderWidth i) (item_color i) (item_polygon i).
Definition setTransformOrigin (o : TransformOrigin) (i : ConvexPolygon)
  : ConvexPolygon :=
  mkConvexPolygon (item_x i) (item_y i) o (item_rotation i)
    (item_visible i) (item_borderWidth i) (item_color i) (item_polygon i).
Definition setRotation (r : qreal) (i : ConvexPolygon) : ConvexPolygon :=
  mkConvexPolygon (item_x i) (item_y i) (item_transformOrigin i) r
    (item_visible i) (item_borderWidth i) (item_color i) (item_polygon i).
Definition setVisible (v : bool) (i : ConvexPolygon) : ConvexPolygon :=
  mkConvexPolygon (item_x i) (item_y i) (item_transformOrigin i)
    (item_rotation i) v (item_borderWidth i) (item_color i) (item_polygon i).
Definition setBorderWidth (w : qreal) (i : ConvexPolygon) : ConvexPolygon :=
  mkConvexPolygon (item_x i) (item_y i) (item_transformOrigin i)
    (item_rotation i) (item_visible i) w (item_color i) (item_polygon i).
Definition ConvexPolygon_setColor (c : QColor) (i : ConvexPolygon)
  : ConvexPolygon :=
  mkConvexPolygon (item_x i) (item_y i) (item_transformOrigin i)
    (item_rotation i) (item_visible i) (item_borderWidth i) c (item_polygon i).
Definition setPolygon (p : list QPointF) (i : ConvexPolygon) : ConvexPolygon :=
  mkConvexPolygon (item_x i) (item_y i) (item_transformOrigin i)
    (item_rotation i) (item_visible i) (item_borderWidth i) (item_color i) p.

(** [std::make_unique<qgl::ConvexPolygon>( this )]: a fresh item with
    [QQuickItem]'s defaults (origin, no rotation, visible, transform origin
    [Center]) and no polygon yet.  Its border width and colour are
    placeholders: [updateCapStyle] overwrites the first at once and no
    statement below reads the second. *)
Definition new_ConvexPolygon : ConvexPolygon :=
  mkConvexPolygon #0 #0 Center #0 true #1 (mkQColor 0 0 0 255) [].

(** The members of [qgl::Arrow] that qglArrow.cpp reads and writes.  The
    [unique_ptr] [_line] is assigned in the constructor and never reset, so
    it is always present; a cap item is [None] when its pointer is null.
    [emitted] is the trace of signals, oldest first. *)
Record Arrow : Type := mkArrow {
  _color : QColor;
  _p1 : QPointF;
  _p2 : QPointF;
  _p1CapStyle : CapStyle;
  _p2CapStyle : CapStyle;
  _p1CapSize : qreal;
  _p2CapSize : qreal;
  _line : Line;
  _p1Arrow : option ConvexPolygon;
  _p2Arrow : option ConvexPolygon;
  emitted : list ArrowSignal
}.

Definition with_color (c : QColor) (a : Arrow) : Arrow :=
  mkArrow c (_p1 a) (_p2 a) (_p1CapStyle a) (_p2CapStyle a) (_p1CapSize a)
    (_p2CapSize a) (_line a) (_p1Arrow a) (_p2Arrow a) (emitted a).
Definition with_p1 (p : QPointF) (a : Arrow) : Arrow :=
  mkArrow (_color a) p (_p2 a) (_p1CapStyle a) (_p2CapStyle a) (_p1CapSize a)
    (_p2CapSize a) (_line a) (_p1Arrow a) (_p2Arrow a) (emitted a).
Definition with_p2 (p : QPointF) (a : Arrow) : Arrow :=
  mkArrow (_color a) (_p1 a) p (_p1CapStyle a) (_p2CapStyle a) (_p1CapSize a)
    (_p2CapSize a) (_line a) (_p1Arrow a) (_p2Arrow a) (emitted a).
Definition with_p1CapStyle (s : CapStyle) (a : Arrow) : Arrow :=
  mkArrow (_color a) (_p1 a) (_p2 a) s (_p2CapStyle a) (_p1CapSize a)
    (_p2CapSize a) (_line a) (_p1Arrow a) (_p2Arrow a) (emitted a).
Definition with_p2CapStyle (s : CapStyle) (a : Arrow) : Arrow :=
  mkArrow (_color a) (_p1 a) (_p2 a) (_p1CapStyle a) s (_p1CapSize a)
    (_p2CapSize a) (_line a) (_p1Arrow a) (_p2Arrow a) (emitted a).
Definition with_p1CapSize (s : qreal) (a : Arrow) : Arrow :=
  mkArrow (_color a) (_p1 a) (_p2 a) (_p1CapStyle a) (_p2CapStyle a) s
    (_p2CapSize a) (_line a) (_p1Arrow a) (_p2Arrow a) (emitted a).
Definition with_p2CapSize (s : qreal) (a : Arrow) : Arrow :=
  mkArrow (_color a) (_p1 a) (_p2 a) (_p1CapStyle a) (_p2CapStyle a)
    (_p1CapSize a) s (_line a) (_p1Arrow a) (_p2Arrow a) (emitted a).
Definition with_line (l : Line) (a : Arrow) : Arrow :=
  mkArrow (_color a) (_p1 a) (_p2 a) (_p1CapStyle a) (_p2CapStyle a)
    (_p1CapSize a) (_p2CapSize a) l (_p1Arrow a) (_p2Arrow a) (emitted a).
Definition with_p1Arrow (i : option ConvexPolygon) (a : Arrow) : Arrow :=
  mkArrow (_color a) (_p1 a) (_p2 a) (_p1CapStyle a) (_p2CapStyle a)
    (_p1CapSize a) (_p2CapSize a) (_line a) i (_p2Arrow a) (emitted a).
Definition with_p2Arrow (i : option ConvexPolygon) (a : Arrow) : Arrow :=
  mkArrow (_color a) (_p1 a) (_p2 a) (_p1CapStyle a) (_p2CapStyle a)
    (_p1CapSize a) (_p2CapSize a) (_line a) (_p1Arrow a) i (emitted a).

(** [emit s()]. *)
Definition emit (s : ArrowSignal) (a : Arrow) : Arrow :=
  mkArrow (_color a) (_p1 a) (_p2 a) (_p1CapStyle a) (_p2CapStyle a)
    (_p1CapSize a) (_p2CapSize a) (_line a) (_p1Arrow a) (_p2Arrow a)
    (emitted a ++ [s]).

(** The inline getters of the cap properties. *)
Definition getP1CapStyle (a : Arrow) : CapStyle := _p1CapStyle a.
Definition getP2CapStyle (a : Arrow) : CapStyle := _p2CapStyle a.
Definition getP1CapSize (a : Arrow) : qreal := _p1CapSize a.
Definition getP2CapSize (a : Arrow) : qreal := _p2CapSize a.

(** Modelled from the spec: qglArrow.h, which defines [getLineWidth], is not
    among the sources.  The Arrow's line width is taken to be the width of
    its internal line, the only width [Arrow::setLineWidth] writes. *)
Definition getLineWidth (a : Arrow) : qreal := Line_lineWidth (_line a).

(** [Arrow::setColor] *)
Definition setColor (color : QColor) (a : Arrow) : Arrow :=
  if negb (QColor_eqb color (_color a)) then
    let a := with_color color a in
    let a := with_line (Line_setColor color (_line a)) a in
    let a := match _p1Arrow a with
             | Some i => with_p1Arrow (Some (ConvexPolygon_setColor color i)) a
             | None => a
             end in
    let a := match _p2Arrow a with
             | Some i => with_p2Arrow (Some (ConvexPolygon_setColor color i)) a
             | None => a
             end in
    emit colorChanged a
  else a.

(** [Arrow::updateGeometry] *)
Definition updateGeometry (a : Arrow) : Arrow :=
  let line := mkQLineF (_p1 a) (_p2 a) in
  let lineLength := length line in
  if lineLength <? lit_0_0001 then a
  else
    let a :=
      match getP1CapStyle a with         (* Source Cap *)
      | NoCap => with_line (Line_setP1 (_p1 a) (_line a)) a
      | ArrowCap =>
          match _p1Arrow a with
          | Some p1Arrow =>
              let angle := qacos (dx line / lineLength) in
              let angle :=
                if dy line <=? #0 then #2 * Pi - angle else angle in
              let truncatedSource :=
                pointAt line (_p1CapSize a * #2 / lineLength) in
              let a := with_line (Line_setP1 truncatedSource (_line a)) a in
              let p1Arrow := setX (x (_p1 a)) p1Arrow in
              let p1Arrow := setY (y (_p1 a)) p1Arrow in
              let p1Arrow := setTransformOrigin TopLeft p1Arrow in
              let p1Arrow := setRotation (angle * #180 / Pi) p1Arrow in
              with_p1Arrow (Some p1Arrow) a
          | None => a
          end
      | CircleCap => a
      end in
    match getP2CapStyle a with           (* Destination Cap *)
    | NoCap => with_line (Line_setP2 (_p2 a) (_line a)) a
    | ArrowCap =>
        match _p2Arrow a with
        | Some p2Arrow =>
            let angle := qacos (dx line / lineLength) in
            let angle :=
              if dy line <=? #0 then #2 * Pi - angle else angle in
            let truncatedP2 :=
              pointAt line (#1 - (_p2CapSize a * #2 / lineLength)) in
            let a := with_line (Line_setP2 truncatedP2 (_line a)) a in
            let p2Arrow := setX (x (_p2 a)) p2Arrow in
            let p2Arrow := setY (y (_p2 a)) p2Arrow in
            let p2Arrow := setTransformOrigin TopLeft p2Arrow in
            let p2Arrow := setRotation (angle * #180 / Pi) p2Arrow in
            with_p2Arrow (Some p2Arrow) a
        | None => a
        end
    | CircleCap => a
    end.

(** [Arrow::setP1] and [Arrow::setP2] *)
Definition setP1 (p1 : QPointF) (a : Arrow) : Arrow :=
  let a := with_p1 p1 a in
  let a := updateGeometry a in
  emit p1Changed a.

Definition setP2 (p2 : QPointF) (a : Arrow) : Arrow :=
  let a := with_p2 p2 a in
  let a := updateGeometry a in
  emit p2Changed a.

(** [Arrow::updateCapStyle] *)
Definition updateCapStyle (a : Arrow) : Arrow :=
  let a :=
    match getP1CapStyle a with
    | NoCap =>
        match _p1Arrow a with
        | Some _ => with_p1Arrow None a        (* _p1Arrow.reset() *)
        | None => a
        end
    | ArrowCap =>
        let a := match _p1Arrow a with
                 | None => with_p1Arrow (Some new_ConvexPolygon) a
                 | Some _ => a
                 end in
        match _p1Arrow a with
        | Some p1Arrow =>
            let p1Arrow := setVisible true p1Arrow in
            let p1Arrow := setBorderWidth #2 p1Arrow in
            let arrowLength := _p1CapSize a * #2 in
            let p := [ mkQPointF #0 #0;
                       mkQPointF arrowLength (- _p1CapSize a);
                       mkQPointF arrowLength (_p1CapSize a);
                       mkQPointF #0 #0 ] in
            with_p1Arrow (Some (setPolygon p p1Arrow)) a
        | None => a
        end
    | CircleCap =>
        match _p1Arrow a with
        | Some p1Arrow => with_p1Arrow (Some (setVisible false p1Arrow)) a
        | None => a
        end
    end in
  match getP2CapStyle a with
  | NoCap =>
      match _p2Arrow a with
      | Some _ => with_p2Arrow None a          (* _p2Arrow.reset() *)
      | None => a
      end
  | ArrowCap =>
      let a := match _p2Arrow a with
               | None => with_p2Arrow (Some new_ConvexPolygon) a
               | Some _ => a
               end in
      match _p2Arrow a with
      | Some p2Arrow =>
          let p2Arrow := setVisible true p2Arrow in
          let p2Arrow := setBorderWidth #2 p2Arrow in
          let arrowLength := _p2CapSize a * #2 in
          let dst := mkQPointF (- arrowLength) #0 in
          let p := [ mkQPointF (x dst) (y dst - _p2CapSize a);
                     mkQPointF (x dst + arrowLength) (y dst);
                     mkQPointF (x dst) (y dst + _p2CapSize a);
                     mkQPointF (x dst) (y dst - _p2CapSize a) ] in
          with_p2Arrow (Some (setPolygon p p2Arrow)) a
      | None => a
      end
  | CircleCap =>
      match _p2Arrow a with
      | Some p2Arrow => with_p2Arrow (Some (setVisible false p2Arrow)) a
      | None => a
      end
  end.

Definition CapStyle_eqb (s t : CapStyle) : bool :=
  match s, t with
  | NoCap, NoCap | ArrowCap, ArrowCap | CircleCap, CircleCap => true
  | _, _ => false
  end.

(** [Arrow::setP1CapStyle] and [Arrow::setP2CapStyle] *)
Definition setP1CapStyle (p1CapStyle : CapStyle) (a : Arrow) : Arrow :=
  if negb (CapStyle_eqb p1CapStyle (_p1CapStyle a)) then
    let a := with_p1CapStyle p1CapStyle a in
    let a := emit p1CapStyleChanged a in
    let a := updateCapStyle a in
    updateGeometry a
  else a.

Definition setP2CapStyle (p2CapStyle : CapStyle) (a : Arrow) : Arrow :=
  if negb (CapStyle_eqb p2CapStyle (_p2CapStyle a)) then
    let a := with_p2CapStyle p2CapStyle a in
    let a := emit p2CapStyleChanged a in
    let a := updateCapStyle a in
    updateGeometry a
  else a.

(** [Arrow::setP1CapSize] and [Arrow::setP2CapSize] *)
Definition setP1CapSize (capSize : qreal) (a : Arrow) : Arrow :=
  let capSize := qMax (getLineWidth a / #2) capSize in
  if negb (qFuzzyCompare (#1 + capSize) (#1 + _p1CapSize a)) then
    let a := with_p1CapSize capSize a in
    let a := emit p1CapSizeChanged a in
    let a := updateCapStyle a in
    updateGeometry a
  else a.

Definition setP2CapSize (capSize : qreal) (a : Arrow) : Arrow :=
  let capSize := qMax (getLineWidth a / #2) capSize in
  if negb (qFuzzyCompare (#1 + capSize) (#1 + _p2CapSize a)) then
    let a := with_p2CapSize capSize a in
    let a := emit p2CapSizeChanged a in
    let a := updateCapStyle a in
    updateGeometry a
  else a.

(** [Arrow::setLineWidth] *)
Definition setLineWidth (lineWidth : qreal) (a : Arrow) : Arrow :=
  let a := with_line (Line_setLineWidth lineWidth (_line a)) a in
  let a := if getP2CapSize a <? lineWidth / #2
           then setP2CapSize (lineWidth / #2) a else a in
  let a := if getP1CapSize a <? lineWidth / #2
           then setP1CapSize (lineWidth / #2) a else a in
  emit lineWidthChanged a.

(** The methods of [Arrow] as one type, to speak about every operation. *)
Inductive ArrowOp : Type :=
  | OpSetColor (color : QColor)
  | OpSetP1 (p1 : QPointF)
  | OpSetP2 (p2 : QPointF)
  | OpSetLineWidth (lineWidth : qreal)
  | OpSetP1CapStyle (s : CapStyle)
  | OpSetP2CapStyle (s : CapStyle)
  | OpSetP1CapSize (capSize : qreal)
  | OpSetP2CapSize (capSize : qreal)
  | OpUpdateCapStyle
  | OpUpdateGeometry.

Definition runOp (op : ArrowOp) (a : Arrow) : Arrow :=
  match op with
  | OpSetColor c => setColor c a
  | OpSetP1 p => setP1 p a
  | OpSetP2 p => setP2 p a
  | OpSetLineWidth w => setLineWidth w a
  | OpSetP1CapStyle s => setP1CapStyle s a
  | OpSetP2CapStyle s => setP2CapStyle s a
  | OpSetP1CapSize s => setP1CapSize s a
  | OpSetP2CapSize s => setP2CapSize s a
  | OpUpdateCapStyle => updateCapStyle a
  | OpUpdateGeometry => updateGeometry a
  end.

Definition runOps (ops : list ArrowOp) (a : Arrow) : Arrow :=
  fold_left (fun a op => runOp op a) ops a.

(** *** What the statements about [Arrow] speak of *)

(** The cap-size bound, as C++ would test it: [capSize >= lineWidth / 2]. *)
Definition capSizesCoverLineWidth (a : Arrow) : Prop :=
  (getLineWidth a / #2 <=? _p1CapSize a) = true /\
  (getLineWidth a / #2 <=? _p2CapSize a) = true.

(** The bound up to the tolerance of the setters' binding-loop guard: the
    cap size is not below [lineWidth / 2], or the guard takes the two for
    equal. *)
Definition capSizeOk (a : Arrow) (capSize : qreal) : Prop :=
  (capSize <? getLineWidth a / #2) = false \/
  qFuzzyCompare (#1 + getLineWidth a / #2) (#1 + capSize) = true.

Definition capSizesOk (a : Arrow) : Prop :=
  capSizeOk a (_p1CapSize a) /\ capSizeOk a (_p2CapSize a).

(** The inputs the spec names for the geometry: two endpoints and the cap
    sizes. *)
Definition sameDeclaredInputs (a b : Arrow) : Prop :=
  _p1 a = _p1 b /\ _p2 a = _p2 b /\
  _p1CapSize a = _p1CapSize b /\ _p2CapSize a = _p2CapSize b.

(** The outputs of the geometry: the endpoints of the internal line, and
    the position and rotation of each cap item. *)
Definition capOutput (i : option ConvexPolygon)
  : option (qreal * qreal * qreal) :=
  option_map (fun i => (item_x i, item_y i, item_rotation i)) i.

Definition geometryOutputs (a : Arrow) :=
  (Line_p1 (_line a), Line_p2 (_line a),
   capOutput (_p1Arrow a), capOutput (_p2Arrow a)).

(** The cap items as [updateCapStyle] leaves them: none at a [NoCap] end,
    one at an [ArrowCap] end. *)
Definition capsEstablished (a : Arrow) : Prop :=
  (_p1CapStyle a = NoCap -> _p1Arrow a = None) /\
  (_p1CapStyle a = ArrowCap -> _p1Arrow a <> None) /\
  (_p2CapStyle a = NoCap -> _p2Arrow a = None) /\
  (_p2CapStyle a = ArrowCap -> _p2Arrow a <> None).

End Model.

Arguments item_rotation {qreal} _.
Arguments item_polygon {qreal} _.

(** *** Sample arrows in binary64 *)

Module Samples.
Import Binary64.

#[local] Set Warnings "-inexact-float".

Definition pt (px py : float) : QPointF float :=
  @mkQPointF float px py.
Definition black : QColor := mkQColor 0 0 0 255.
Definition white : QColor := mkQColor 255 255 255 255.

(** An internal line of width 2, not laid out yet. *)
Definition line0 : Line float :=
  @mkLine float (pt 0 0) (pt 0 0) black 2%float.

(** A cap item as [updateCapStyle] sets it up for cap size 1. *)
Definition cap1 : ConvexPolygon float :=
  @mkConvexPolygon float 0%float 0%float Center 0%float true 2%float black
    [pt 0 0; pt 2 (-1); pt 2 1; pt 0 0].
Definition cap2 : ConvexPolygon float :=
  @mkConvexPolygon float 0%float 0%float Center 0%float true 2%float black
    [pt (-2) (-1); pt 0 0; pt (-2) 1; pt (-2) (-1)].

(** From (0,0) to (3,4), an arrow head of size 1 at both ends. *)
Definition arrow345 : Arrow float :=
  @mkArrow float black (pt 0 0) (pt 3 4) ArrowCap ArrowCap 1%float 1%float
    line0 (Some cap1) (Some cap2) [].

(** The same endpoints and cap sizes, no cap at the destination. *)
Definition arrow345_plain_p2 : Arrow float :=
  @mkArrow float black (pt 0 0) (pt 3 4) ArrowCap NoCap 1%float 1%float
    line0 (Some cap1) None [].

(** The same endpoints and cap sizes with circle caps, which
    [updateGeometry] leaves alone, over two different earlier layouts. *)
Definition circle345 (l : Line float) : Arrow float :=
  @mkArrow float black (pt 0 0) (pt 3 4) CircleCap CircleCap 1%float 1%float
    l None None [].
Definition line_laid_out : Line float :=
  @mkLine float (pt 7 7) (pt 9 9) black 2%float.

(** Both endpoints at the origin, over two different earlier layouts. *)
Definition dot (l : Line float) : Arrow float :=
  @mkArrow float black (pt 0 0) (pt 0 0) ArrowCap ArrowCap 1%float 1%float
    l (Some cap1) (Some cap2) [].

(** A line width just above 2: half of it exceeds the cap size 1 by
    5e-13. *)
Definition width_just_above_2 : float := 2.000000000001%float.

(** An arrow of line width 1 with caps of size 4, and the calls that make
    it [arrow345]'s equal in width and cap sizes. *)
Definition arrow_thin : Arrow float :=
  @mkArrow float black (pt 0 0) (pt 3 4) ArrowCap ArrowCap 4%float 4%float
    (@mkLine float (pt 0 0) (pt 0 0) black 1%float) (Some cap1) (Some cap2) [].
Definition widen_then_shrink_caps : list (ArrowOp float) :=
  [OpSetLineWidth 2%float; OpSetP1CapSize 1%float; OpSetP2CapSize 1%float].

(** [arrow345] after [setP2CapSize( 1e308 )]: a finite cap size whose
    double is not. *)
Definition arrow_huge_cap : Arrow float :=
  setP2CapSize 1e308%float arrow345.

(** Vertex lists compared coordinate by coordinate with the [==] of
    [double], which takes the two zeros for equal and NaN for different
    from everything. *)
Definition same_point (p q : QPointF float) : bool :=
  (x p =? x q)%float && (y p =? y q)%float.

Fixpoint same_polygon (l m : list (QPointF float)) : bool :=
  match l, m with
  | [], [] => true
  | p :: l, q :: m => same_point p q && same_polygon l m
  | _, _ => false
  end.

(** A division that is the quotient on divisors of at least 0.0001 and 0
    on every other divisor, NaN among them. *)
Definition div_at_least_0_0001 (u d : float) : float :=
  if (0.0001 <=? d)%float then (u / d)%float else 0%float.

(** [arrow345] with its destination at an abscissa that is not a number,
    as a binding to an undefined value delivers it. *)
Definition arrow_nan : Arrow float :=
  @mkArrow float black (pt 0 0) (pt nan 4) ArrowCap NoCap 1%float 1%float
    line0 (Some cap1) None [].

End Samples.

(** *** A sample arrow over the reals *)

Module ExactSamples.
Import Exact.

Definition ptR (px py : R) : QPointF R := @mkQPointF R px py.

(** From (0,0) to (3,4), styled with arrow heads of size 1 whose items
    [updateCapStyle] has yet to create. *)
Definition arrowR : Arrow R :=
  @mkArrow R (mkQColor 0 0 0 255) (ptR 0 0) (ptR 3 4) ArrowCap ArrowCap
    1%R 1%R (@mkLine R (ptR 0 0) (ptR 0 0) (mkQColor 0 0 0 255) 2%R)
    None None [].

(** The same arrow with a cap item at each end. *)
Definition capR : ConvexPolygon R :=
  @mkConvexPolygon R 0%R 0%R Center 0%R true 2%R (mkQColor 0 0 0 255) [].
Definition arrowR_caps : Arrow R :=
  @mkArrow R (mkQColor 0 0 0 255) (ptR 0 0) (ptR 3 4) ArrowCap ArrowCap
    1%R 1%R (@mkLine R (ptR 0 0) (ptR 0 0) (mkQColor 0 0 0 255) 2%R)
    (Some capR) (Some capR) [].

(** A line width above 2 by 1e-12. *)
Definition widthR_just_above_2 : R := (2 + 1 / 1000000000000)%R.

End ExactSamples.

(** ** qan::Node *)

(** The change signals of the properties below. *)
Inductive NodeSignal : Type :=
  | minimumSizeChanged | draggableChanged | dropableChanged
  | acceptDropsChanged | dragActiveChanged | labelChanged
  | boundingShapeChanged | serializableChanged | resizableChanged.

Section NodeModel.

Variable qreal : Type.

(** The state of the base class [gtpo::GenNode< qan::Config >] (adjacency,
    group membership, ...): owned by the gtpo library, opaque here. *)
Variable GenNode : Type.

(** [qan::Node]: the base sub-object, the members that the setters
    qanNode.h defines inline assign, the [ItemAcceptsDrops] flag of
    [QQuickItem], and the trace of emitted signals, oldest first. *)
Record Node : Type := mkNode {
  gtpo_base : GenNode;
  _minimumSize : QSizeF qreal;
  _draggable : bool;
  _dropable : bool;
  _acceptDrops : bool;
  ItemAcceptsDrops : bool;
  _dragActive : bool;
  _label : string;
  _boundingShape : list (QPointF qreal);
  node_emitted : list NodeSignal
}.

Definition node_emit (s : NodeSignal) (n : Node) : Node :=
  mkNode (gtpo_base n) (_minimumSize n) (_draggable n) (_dropable n)
    (_acceptDrops n) (ItemAcceptsDrops n) (_dragActive n) (_label n)
    (_boundingShape n) (node_emitted n ++ [s]).

Definition getMinimumSize (n : Node) : QSizeF qreal := _minimumSize n.
Definition setMinimumSize (minimumSize : QSizeF qreal) (n : Node) : Node :=
  let n := mkNode (gtpo_base n) minimumSize (_draggable n) (_dropable n)
             (_acceptDrops n) (ItemAcceptsDrops n) (_dragActive n) (_label n)
             (_boundingShape n) (node_emitted n) in
  node_emit minimumSizeChanged n.

Definition getDraggable (n : Node) : bool := _draggable n.
Definition setDraggable (draggable : bool) (n : Node) : Node :=
  let n := mkNode (gtpo_base n) (_minimumSize n) draggable (_dropable n)
             (_acceptDrops n) (ItemAcceptsDrops n) (_dragActive n) (_label n)
             (_boundingShape n) (node_emitted n) in
  node_emit draggableChanged n.

Definition getDropable (n : Node) : bool := _dropable n.
Definition setDropable (dropable : bool) (n : Node) : Node :=
  let n := mkNode (gtpo_base n) (_minimumSize n) (_draggable n) dropable
             (_acceptDrops n) (ItemAcceptsDrops n) (_dragActive n) (_label n)
             (_boundingShape n) (node_emitted n) in
  node_emit dropableChanged n.

Definition getAcceptDrops (n : Node) : bool := _acceptDrops n.
Definition setAcceptDrops (acceptDrops : bool) (n : Node) : Node :=
  let n := mkNode (gtpo_base n) (_minimumSize n) (_draggable n) (_dropable n)
             acceptDrops (ItemAcceptsDrops n) (_dragActive n) (_label n)
             (_boundingShape n) (node_emitted n) in
  (* setFlag( QQuickItem::ItemAcceptsDrops, acceptDrops ) *)
  let n := mkNode (gtpo_base n) (_minimumSize n) (_draggable n) (_dropable n)
             (_acceptDrops n) acceptDrops (_dragActive n) (_label n)
             (_boundingShape n) (node_emitted n) in
  node_emit acceptDropsChanged n.

Definition getDragActive (n : Node) : bool := _dragActive n.
Definition setDragActive (dragActive : bool) (n : Node) : Node :=
  let n := mkNode (gtpo_base n) (_minimumSize n) (_draggable n) (_dropable n)
             (_acceptDrops n) (ItemAcceptsDrops n) dragActive (_label n)
             (_boundingShape n) (node_emitted n) in
  node_emit dragActiveChanged n.

Definition getLabel (n : Node) : string := _label n.
Definition setLabel (label : string) (n : Node) : Node :=
  let n := mkNode (gtpo_base n) (_minimumSize n) (_draggable n) (_dropable n)
             (_acceptDrops n) (ItemAcceptsDrops n) (_dragActive n) label
             (_boundingShape n) (node_emitted n) in
  node_emit labelChanged n.

Definition setBoundingShape (boundingShape : list (QPointF qreal))
    (n : Node) : Node :=
  let n := mkNode (gtpo_base n) (_minimumSize n) (_draggable n) (_dropable n)
             (_acceptDrops n) (ItemAcceptsDrops n) (_dragActive n) (_label n)
             boundingShape (node_emitted n) in
  node_emit boundingShapeChanged n.

(** Modelled from the spec: the gtpo library is not among the sources.
    [setSerializable] and [setResizable] are methods of the base class
    [gtpo::GenNode]; they are taken to act on the base sub-object alone, in
    whatever way. *)
Variable setSerializable : bool -> GenNode -> GenNode.
Variable setResizable : bool -> GenNode -> GenNode.

(** [setSerializableObs] and [setResizableObs] forward to the base class and
    signal. *)
Definition setSerializableObs (serializable : bool) (n : Node) : Node :=
  let n := mkNode (setSerializable serializable (gtpo_base n))
             (_minimumSize n) (_draggable n) (_dropable n) (_acceptDrops n)
             (ItemAcceptsDrops n) (_dragActive n) (_label n)
             (_boundingShape n) (node_emitted n) in
  node_emit serializableChanged n.

Definition setResizableObs (resizable : bool) (n : Node) : Node :=
  let n := mkNode (setResizable resizable (gtpo_base n))
             (_minimumSize n) (_draggable n) (_dropable n) (_acceptDrops n)
             (ItemAcceptsDrops n) (_dragActive n) (_label n)
             (_boundingShape n) (node_emitted n) in
  node_emit resizableChanged n.

End NodeModel.

(** ** qan::ProgressNotifier *)

Section ProgressNotifierModel.

(** Addresses of [QObject]s and of gtpo notifiers; a pointer is [None] when
    it is [nullptr]. *)
Variable QObjectPtr : Type.
Variable NotifierPtr : Type.

(** The two base sub-objects, each as the argument its constructor took:
    [QObject( parent )] and [gtpo::ProgressNotifier( superNotifier )]. *)
Record QObject : Type := mkQObject { parent : option QObjectPtr }.
Record gtpo_ProgressNotifier : Type :=
  mk_gtpo_ProgressNotifier { superProgressNotifier : option NotifierPtr }.

(** [qan::ProgressNotifier] declares no member of its own in what the
    constructor touches: the object is its two bases. *)
Record ProgressNotifier : Type := mkProgressNotifier {
  base_QObject : QObject;
  base_gtpo : gtpo_ProgressNotifier
}.

(** [ProgressNotifier::ProgressNotifier( QObject* parent )]: the member
    initialiser list, then the empty body. *)
Definition ProgressNotifier_new (parent : option QObjectPtr)
  : ProgressNotifier :=
  let this := mkProgressNotifier (mkQObject parent)
                (mk_gtpo_ProgressNotifier None) in
  this.

End ProgressNotifierModel.

(** ** Arrow's constructor, sequences of calls *)

Section MoreModel.

Variable qreal : Type.
Context {Q : QReal qreal}.
Local Open Scope qreal_scope.

(** The vertex lists [updateCapStyle] hands to [setPolygon], as the code
    computes them from a cap size. *)
Definition capTriangleP1 (capSize : qreal) : list (QPointF qreal) :=
  let arrowLength := capSize * #2 in
  [ mkQPointF #0 #0;
    mkQPointF arrowLength (- capSize);
    mkQPointF arrowLength capSize;
    mkQPointF #0 #0 ].

Definition capTriangleP2 (capSize : qreal) : list (QPointF qreal) :=
  let arrowLength := capSize * #2 in
  let dst := mkQPointF (- arrowLength) #0 in
  [ mkQPointF (x dst) (y dst - capSize);
    mkQPointF (x dst + arrowLength) (y dst);
    mkQPointF (x dst) (y dst + capSize);
    mkQPointF (x dst) (y dst - capSize) ].

(** A cap item that matches its end's style and cap size: none for
    [NoCap]; for [ArrowCap] a visible item with border width 2 and the
    triangle of the cap size; for [CircleCap] no item or a hidden one. *)
Definition capInSync (style : CapStyle) (triangle : list (QPointF qreal))
    (item : option (ConvexPolygon qreal)) : Prop :=
  match style, item with
  | NoCap, None => True
  | NoCap, Some _ => False
  | ArrowCap, Some i =>
      item_visible i = true /\ item_borderWidth i = #2 /\
      item_polygon i = triangle
  | ArrowCap, None => False
  | CircleCap, Some i => item_visible i = false
  | CircleCap, None => True
  end.

Definition capsInSync (a : Arrow qreal) : Prop :=
  capInSync (_p1CapStyle a) (capTriangleP1 (_p1CapSize a)) (_p1Arrow a) /\
  capInSync (_p2CapStyle a) (capTriangleP2 (_p2CapSize a)) (_p2Arrow a).

(** The internal line is drawn in the arrow's colour. *)
Definition lineColourInSync (a : Arrow qreal) : Prop :=
  Line_color (_line a) = _color a.

(** [Arrow::Arrow( QQuickItem* parent )].  A constructed arrow item is the
    members of [Arrow] together with the [ItemHasContents] flag of
    [QQuickItem].  qglArrow.h, with the default member initialisers, and
    the constructor of [qgl::Line] are not among the sources: the members
    as initialised before the body runs and the fresh line are
    parameters. *)
Record ArrowItem : Type := mkArrowItem {
  members : Arrow qreal;
  ItemHasContents : bool
}.

Definition Arrow_new (initialised : Arrow qreal) (fresh_line : Line qreal)
  : ArrowItem :=
  let a := with_line fresh_line initialised in   (* _line = make_unique *)
  let a := updateCapStyle a in
  mkArrowItem a true.                            (* setFlag( ItemHasContents ) *)

(** The rotation in degrees that both cap branches of [updateGeometry]
    compute for a line. *)
Definition capRotation (line : QLineF qreal) : qreal :=
  let lineLength := length line in
  let angle := qacos (dx line / lineLength) in
  let angle := if dy line <=? #0 then #2 * Pi - angle else angle in
  angle * #180 / Pi.

(** A cap item after the four placement calls of [updateGeometry]. *)
Definition placedAt (p : QPointF qreal) (rotation : qreal)
    (i : ConvexPolygon qreal) : ConvexPolygon qreal :=
  setRotation rotation
    (setTransformOrigin TopLeft (setY (y p) (setX (x p) i))).

(** A cap item after the three styling calls of [updateCapStyle]. *)
Definition dressed (triangle : list (QPointF qreal))
    (i : ConvexPolygon qreal) : ConvexPolygon qreal :=
  setPolygon triangle (setBorderWidth #2 (setVisible true i)).

(** Whether [setLineWidth( lineWidth )] stores a new size for a cap of size
    [capSize]: the size is below half the width, and the guard of the cap
    setter does not take the two for equal. *)
Definition raises (lineWidth capSize : qreal) : bool :=
  (capSize <? lineWidth / #2)
  && negb (qFuzzyCompare (#1 + lineWidth / #2) (#1 + capSize)).

End MoreModel.

(** The nine setters that qanNode.h defines inline, as one type. *)
Inductive NodeOp (qreal : Type) : Type :=
  | OpSetSerializableObs (serializable : bool)
  | OpSetResizableObs (resizable : bool)
  | OpSetMinimumSize (minimumSize : QSizeF qreal)
  | OpSetDraggable (draggable : bool)
  | OpSetDropable (dropable : bool)
  | OpSetAcceptDrops (acceptDrops : bool)
  | OpSetDragActive (dragActive : bool)
  | OpSetLabel (label : string)
  | OpSetBoundingShape (boundingShape : list (QPointF qreal)).

Arguments OpSetSerializableObs {qreal} _.
Arguments OpSetResizableObs {qreal} _.
Arguments OpSetDraggable {qreal} _.
Arguments OpSetDropable {qreal} _.
Arguments OpSetAcceptDrops {qreal} _.
Arguments OpSetDragActive {qreal} _.
Arguments OpSetLabel {qreal} _.

Section NodeCallsModel.

Context {qreal GenNode : Type}.
Variable setSerializable : bool -> GenNode -> GenNode.
Variable setResizable : bool -> GenNode -> GenNode.

Definition runNodeOp (op : NodeOp qreal) (n : Node qreal GenNode)
  : Node qreal GenNode :=
  match op with
  | OpSetSerializableObs b => setSerializableObs setSerializable b n
  | OpSetResizableObs b => setResizableObs setResizable b n
  | OpSetMinimumSize z => setMinimumSize z n
  | OpSetDraggable b => setDraggable b n
  | OpSetDropable b => setDropable b n
  | OpSetAcceptDrops b => setAcceptDrops b n
  | OpSetDragActive b => setDragActive b n
  | OpSetLabel l => setLabel l n
  | OpSetBoundingShape p => setBoundingShape p n
  end.

Definition runNodeOps (ops : list (NodeOp qreal)) (n : Node qreal GenNode)
  : Node qreal GenNode :=
  fold_left (fun n op => runNodeOp op n) ops n.

(** What a call hands to the gtpo base: the two forwarding setters call
    the base's setter, the others nothing. *)
Definition forwarded (op : NodeOp qreal) (base : GenNode) : GenNode :=
  match op with
  | OpSetSerializableObs b => setSerializable b base
  | OpSetResizableObs b => setResizable b base
  | _ => base
  end.

(** The setters that assign a member of [qan::Node] itself. *)
Definition assignsMember (op : NodeOp qreal) : bool :=
  match op with
  | OpSetSerializableObs _ | OpSetResizableObs _ => false
  | _ => true
  end.

End NodeCallsModel.

(** * Properties *)

(** ** The two arithmetics satisfy the comparison laws *)

Module Binary64Laws.
Import Binary64.

Lemma SFcompare_swap (f g : spec_float) :
  SFcompare g f = option_map CompOpp (SFcompare f g).
Proof.
  destruct f as [s1| s1| |s1 m1 e1], g as [s2| s2| |s2 m2 e2];
    try destruct s1; try destruct s2; cbn [SFcompare option_map CompOpp];
    try reflexivity;
    rewrite (Z.compare_antisym e1 e2);
    destruct (e1 ?= e2)%Z; cbn [CompOpp]; try reflexivity;
    rewrite (Pos.compare_cont_antisym m1 m2 Eq); cbn [CompOpp];
    try reflexivity;
    now rewrite CompOpp_involutive.
Qed.

Lemma SFcompare_refl_not_Lt (f : spec_float) : SFcompare f f <> Some Lt.
Proof.
  destruct f as [s| s| |s m e]; try destruct s; cbn [SFcompare];
    try discriminate;
    rewrite Z.compare_refl, Pos.compare_cont_refl; discriminate.
Qed.

#[export] Instance binary64_order : QRealOrder binary64.
Proof.
  split; cbn [qltb qleb binary64]; intros.
  - rewrite ltb_spec. unfold SFltb.
    pose proof (SFcompare_refl_not_Lt (Prim2SF a)) as H.
    destruct (SFcompare (Prim2SF a) (Prim2SF a)) as [[]|]; congruence.
  - rewrite ltb_spec in *. unfold SFltb in *.
    rewrite (SFcompare_swap (Prim2SF a) (Prim2SF b)).
    destruct (SFcompare (Prim2SF a) (Prim2SF b)) as [[]|];
      cbn [option_map CompOpp]; congruence.
  - rewrite ltb_spec. rewrite leb_spec in *. unfold SFltb, SFleb in *.
    rewrite (SFcompare_swap (Prim2SF a) (Prim2SF b)).
    destruct (SFcompare (Prim2SF a) (Prim2SF b)) as [[]|];
      cbn [option_map CompOpp]; congruence.
  - rewrite leb_spec. rewrite ltb_spec in *. unfold SFltb, SFleb in *.
    rewrite (SFcompare_swap (Prim2SF a) (Prim2SF b)).
    destruct (SFcompare (Prim2SF a) (Prim2SF b)) as [[]|];
      cbn [option_map CompOpp]; congruence.
Qed.

(** The identities behind the cap polygon, as far as binary64 has them. *)
Lemma binary64_mul_comm (a b : float) : (a * b = b * a)%float.
Proof.
  apply Prim2SF_inj. rewrite !mul_spec.
  destruct (Prim2SF a) as [s1|s1| |s1 m1 e1],
    (Prim2SF b) as [s2|s2| |s2 m2 e2];
    unfold SF64mul, SFmul; try reflexivity;
    rewrite ?(xorb_comm s1 s2), ?(Pos.mul_comm m1 m2), ?(Z.add_comm e1 e2);
    reflexivity.
Qed.

Lemma binary64_sub_0_l (s : float) :
  finite_nonzero s = true -> (0 - s = - s)%float.
Proof.
  unfold finite_nonzero. intro H. apply Prim2SF_inj.
  rewrite sub_spec, opp_spec. change (Prim2SF 0) with (S754_zero false).
  destruct (Prim2SF s); try discriminate. reflexivity.
Qed.

Lemma binary64_add_0_l (s : float) :
  finite_nonzero s = true -> (0 + s = s)%float.
Proof.
  unfold finite_nonzero. intro H. apply Prim2SF_inj.
  rewrite add_spec. change (Prim2SF 0) with (S754_zero false).
  destruct (Prim2SF s); try discriminate. reflexivity.
Qed.

Lemma binary64_add_opp_l (a : float) :
  finite a = true -> (- a + a = 0)%float.
Proof.
  unfold finite. intro H. apply Prim2SF_inj.
  rewrite add_spec, opp_spec. change (Prim2SF 0) with (S754_zero false).
  destruct (Prim2SF a) as [sg|sg| |sg m e]; try discriminate.
  - now destruct sg.
  - unfold SF64add, SFadd, SFopp. rewrite Z.min_id. unfold shl_align.
    rewrite Z.sub_diag. cbn [fst].
    destruct sg; cbn [negb cond_Zopp Z.opp Z.add];
      rewrite Z.pos_sub_diag; reflexivity.
Qed.

(** Every float but NaN compares equal to itself. *)
Lemma SFcompare_self (f : spec_float) :
  f <> S754_nan -> SFcompare f f = Some Eq.
Proof.
  destruct f as [s|s| |s m e]; try destruct s; cbn [SFcompare];
    try congruence; intros _;
    rewrite Z.compare_refl, Pos.compare_cont_refl; reflexivity.
Qed.

Lemma finite_eqb_refl (f : float) :
  finite f = true -> (f =? f)%float = true.
Proof.
  unfold finite. intro H. rewrite eqb_spec. unfold SFeqb.
  rewrite SFcompare_self; [reflexivity|].
  destruct (Prim2SF f); discriminate.
Qed.

Lemma finite_opp (f : float) : finite (- f) = finite f.
Proof. unfold finite. rewrite opp_spec. now destruct (Prim2SF f). Qed.

Lemma finite_half (s : float) : finite (s * 2) = true -> finite s = true.
Proof.
  unfold finite. rewrite mul_spec.
  change (Prim2SF 2) with (S754_finite false 4503599627370496 (-51)).
  destruct (Prim2SF s); try reflexivity; discriminate.
Qed.

(** On a zero the two identities hold up to the sign of the zero. *)
Lemma binary64_sub_0_l_number (s : float) :
  finite s = true -> (0 - s =? - s)%float = true.
Proof.
  intro F. destruct (finite_nonzero s) eqn:N.
  - rewrite (binary64_sub_0_l s N). apply finite_eqb_refl.
    now rewrite finite_opp.
  - rewrite eqb_spec, sub_spec, opp_spec.
    change (Prim2SF 0) with (S754_zero false).
    unfold finite in F. unfold finite_nonzero in N.
    destruct (Prim2SF s) as [b|b| |b m e]; try discriminate.
    now destruct b.
Qed.

Lemma binary64_add_0_l_number (s : float) :
  finite s = true -> (0 + s =? s)%float = true.
Proof.
  intro F. destruct (finite_nonzero s) eqn:N.
  - rewrite (binary64_add_0_l s N). now apply finite_eqb_refl.
  - rewrite eqb_spec, add_spec.
    change (Prim2SF 0) with (S754_zero false).
    unfold finite in F. unfold finite_nonzero in N.
    destruct (Prim2SF s) as [b|b| |b m e]; try discriminate.
    now destruct b.
Qed.

End Binary64Laws.

Module ExactLaws.
Import Exact.

#[export] Instance reals_order : QRealOrder reals.
Proof.
  split; cbn [qltb qleb reals]; unfold Rltb, Rleb; intros *;
    repeat match goal with
           | |- context [Rlt_dec ?u ?v] => destruct (Rlt_dec u v)
           | |- context [Rle_dec ?u ?v] => destruct (Rle_dec u v)
           end; intros; try reflexivity; try discriminate; lra.
Qed.

#[export] Instance reals_exact : QRealExact reals.
Proof.
  split; cbn [qltb qleb qadd qsub qmul qopp lit reals]; unfold Rltb, Rleb;
    intros *;
    repeat match goal with
           | |- context [Rlt_dec ?u ?v] => destruct (Rlt_dec u v)
           | |- context [Rle_dec ?u ?v] => destruct (Rle_dec u v)
           end; intros; try reflexivity; try discriminate;
    try apply Rmult_comm; lra.
Qed.

End ExactLaws.

(** Case analysis on the two cap styles and the two cap items of an arrow,
    followed by evaluation of the record accessors. *)
Ltac arrow_cases a :=
  unfold getP1CapStyle, getP2CapStyle in *; cbv zeta;
  let s1 := fresh "s1" in let s2 := fresh "s2" in
  let i1 := fresh "i1" in let i2 := fresh "i2" in
  destruct a as [? ? ? s1 s2 ? ? ? i1 i2 ?];
  cbn [_color _p1 _p2 _p1CapStyle _p2CapStyle _p1CapSize _p2CapSize _line
       _p1Arrow _p2Arrow emitted] in *;
  destruct s1, s2, i1, i2; try discriminate; try contradiction; cbn.

(** Case analysis on the two cap items alone. *)
Ltac item_cases a :=
  let i1 := fresh "i1" in let i2 := fresh "i2" in
  destruct a as [? ? ? ? ? ? ? ? i1 i2 ?];
  cbn [_color _p1 _p2 _p1CapStyle _p2CapStyle _p1CapSize _p2CapSize _line
       _p1Arrow _p2Arrow emitted] in *;
  destruct i1, i2; cbn.

(** ** Arrow::updateGeometry *)

Section UpdateGeometry.

Context {qreal : Type} {Q : QReal qreal}.
Local Open Scope qreal_scope.

(** The guard of [updateGeometry] does not fire on a line whose length is
    at least 0.0001. *)
Lemma long_line_passes_guard {QO : QRealOrder Q} (l : QLineF qreal) :
  (lit_0_0001 <=? length l) = true -> (length l <? lit_0_0001) = false.
Proof. apply qleb_not_gt. Qed.

(** What [updateGeometry] never writes. *)
Lemma updateGeometry_frame (a : Arrow qreal) :
  let a' := updateGeometry a in
  _p1 a' = _p1 a /\ _p2 a' = _p2 a /\
  _p1CapStyle a' = _p1CapStyle a /\ _p2CapStyle a' = _p2CapStyle a /\
  _p1CapSize a' = _p1CapSize a /\ _p2CapSize a' = _p2CapSize a /\
  _color a' = _color a /\ emitted a' = emitted a /\
  Line_lineWidth (_line a') = Line_lineWidth (_line a) /\
  Line_color (_line a') = Line_color (_line a).
Proof.
  unfold updateGeometry, getP1CapStyle, getP2CapStyle.
  destruct (length _ <? lit_0_0001); cbn zeta; [repeat split|].
  arrow_cases a; repeat split; congruence.
Qed.

(** C1. On endpoints at least 0.0001 apart, [updateGeometry] hands the
    internal line a truncated segment: at an end with [ArrowCap] style and a
    cap item, [P1] becomes the point at parameter [p1CapSize * 2 / length]
    and [P2] the point at parameter [1 - p2CapSize * 2 / length] of the
    segment from [p1] to [p2]; an end with [NoCap] style gets the endpoint
    itself. *)
Theorem updateGeometry_truncates_line {QO : QRealOrder Q} (a : Arrow qreal) :
  let line := mkQLineF (_p1 a) (_p2 a) in
  let lineLength := length line in
  (lit_0_0001 <=? lineLength) = true ->
  (_p1CapStyle a = NoCap ->
     Line_p1 (_line (updateGeometry a)) = _p1 a) /\
  (_p1CapStyle a = ArrowCap -> _p1Arrow a <> None ->
     Line_p1 (_line (updateGeometry a))
     = pointAt line (_p1CapSize a * #2 / lineLength)) /\
  (_p2CapStyle a = NoCap ->
     Line_p2 (_line (updateGeometry a)) = _p2 a) /\
  (_p2CapStyle a = ArrowCap -> _p2Arrow a <> None ->
     Line_p2 (_line (updateGeometry a))
     = pointAt line (#1 - (_p2CapSize a * #2 / lineLength))).
Proof.
  intros line lineLength Hlen.
  apply long_line_passes_guard in Hlen.
  subst lineLength line.
  unfold updateGeometry, getP1CapStyle, getP2CapStyle.
  cbv zeta. rewrite Hlen.
  repeat split; intros; arrow_cases a; reflexivity.
Qed.

(** C2. On endpoints at least 0.0001 apart, a cap item of an [ArrowCap] end
    is rotated by [theta * 180 / Pi] degrees, where [theta] is
    [acos(dx/len)] when [dy > 0] and [2*Pi - acos(dx/len)] when [dy <= 0];
    the P1 cap and the P2 cap of a segment get the same [theta]. *)
Theorem updateGeometry_cap_rotation {QO : QRealOrder Q} (a : Arrow qreal)
    (theta : qreal) :
  let line := mkQLineF (_p1 a) (_p2 a) in
  let len := length line in
  (lit_0_0001 <=? len) = true ->
  ((#0 <? dy line) = true /\ theta = qacos (dx line / len)) \/
  ((dy line <=? #0) = true /\ theta = #2 * Pi - qacos (dx line / len)) ->
  (_p1CapStyle a = ArrowCap -> _p1Arrow a <> None ->
     option_map item_rotation (_p1Arrow (updateGeometry a))
     = Some (theta * #180 / Pi)) /\
  (_p2CapStyle a = ArrowCap -> _p2Arrow a <> None ->
     option_map item_rotation (_p2Arrow (updateGeometry a))
     = Some (theta * #180 / Pi)).
Proof.
  intros line len Hlen Htheta.
  apply long_line_passes_guard in Hlen.
  assert (Hangle :
    (if dy line <=? #0 then #2 * Pi - qacos (dx line / len)
     else qacos (dx line / len)) = theta).
  { destruct Htheta as [[Hpos ->] | [Hneg ->]].
    - apply qltb_not_ge in Hpos. now rewrite Hpos.
    - now rewrite Hneg. }
  subst len line.
  unfold updateGeometry, getP1CapStyle, getP2CapStyle.
  cbv zeta. rewrite Hlen.
  split; intros; arrow_cases a; rewrite ?Hangle; reflexivity.
Qed.

(** C4. On endpoints at least 0.0001 apart, a cap item of an [ArrowCap] end
    is placed exactly at its endpoint, with transform origin [TopLeft]: the
    P1 cap at [(p1.x, p1.y)], the P2 cap at [(p2.x, p2.y)]. *)
Theorem updateGeometry_cap_position {QO : QRealOrder Q} (a : Arrow qreal) :
  let placement (i : ConvexPolygon qreal) :=
    (item_x i, item_y i, item_transformOrigin i) in
  (lit_0_0001 <=? length (mkQLineF (_p1 a) (_p2 a))) = true ->
  (_p1CapStyle a = ArrowCap -> _p1Arrow a <> None ->
     option_map placement (_p1Arrow (updateGeometry a))
     = Some (x (_p1 a), y (_p1 a), TopLeft)) /\
  (_p2CapStyle a = ArrowCap -> _p2Arrow a <> None ->
     option_map placement (_p2Arrow (updateGeometry a))
     = Some (x (_p2 a), y (_p2 a), TopLeft)).
Proof.
  intros placement Hlen.
  apply long_line_passes_guard in Hlen.
  unfold updateGeometry, getP1CapStyle, getP2CapStyle.
  cbv zeta. rewrite Hlen.
  split; intros; arrow_cases a; reflexivity.
Qed.

(** C8. [updateGeometry] is a total function that returns at once on a
    line shorter than 0.0001: the arrow, hence the internal line's endpoints
    and both cap items' positions and rotations, is left as it was.  And no
    run consults a quotient by a length below 0.0001: put any other
    operation in place of the division at every divisor that is below
    0.0001 (and is not the constant [Pi] of the conversion to degrees), and
    [updateGeometry] computes the same arrow.  A length that is not below
    0.0001 need not be at least 0.0001: in binary64 a length that is not a
    number is neither, and it is divided by. *)
Theorem updateGeometry_short_line (a : Arrow qreal) :
  let lineLength := length (mkQLineF (_p1 a) (_p2 a)) in
  ((lineLength <? lit_0_0001) = true -> updateGeometry a = a) /\
  (forall div' : qreal -> qreal -> qreal,
     (forall u d, (d <? lit_0_0001) = false \/ d = Pi -> div' u d = u / d) ->
     updateGeometry (Q := with_qdiv Q div') a = updateGeometry a).
Proof.
  intro lineLength. subst lineLength. split.
  - intro Hshort. unfold updateGeometry. cbv zeta. now rewrite Hshort.
  - intros div' Hdiv.
    unfold updateGeometry, getP1CapStyle, getP2CapStyle, pointAt, dx, dy.
    cbv zeta.
    change (@length qreal (with_qdiv Q div')) with (@length qreal Q).
    cbn [with_qdiv qadd qsub qmul qdiv qopp qltb qleb qsqrt qacos lit
         lit_0_0001 Pi].
    destruct (length (mkQLineF (_p1 a) (_p2 a)) <? lit_0_0001) eqn:Hlen;
      [reflexivity|].
    rewrite !(Hdiv _ (length _) (or_introl Hlen)).
    rewrite !(Hdiv _ Pi (or_intror eq_refl)).
    reflexivity.
Qed.

(** In exact arithmetic the failed test reads: the length is at least
    0.0001. *)
Lemma updateGeometry_writes_only_on_long_lines {QE : QRealExact Q}
    (a : Arrow qreal) :
  updateGeometry a <> a ->
  (lit_0_0001 <=? length (mkQLineF (_p1 a) (_p2 a))) = true.
Proof.
  intro H. apply qleb_total.
  destruct (length (mkQLineF (_p1 a) (_p2 a)) <? lit_0_0001) eqn:E;
    [|reflexivity].
  destruct H. unfold updateGeometry. cbv zeta. now rewrite E.
Qed.

End UpdateGeometry.

(** ** Arrow::updateCapStyle *)

Section UpdateCapStyle.

Context {qreal : Type} {Q : QReal qreal}.
Local Open Scope qreal_scope.

(** What [updateCapStyle] never writes. *)
Lemma updateCapStyle_frame (a : Arrow qreal) :
  let a' := updateCapStyle a in
  _p1 a' = _p1 a /\ _p2 a' = _p2 a /\
  _p1CapStyle a' = _p1CapStyle a /\ _p2CapStyle a' = _p2CapStyle a /\
  _p1CapSize a' = _p1CapSize a /\ _p2CapSize a' = _p2CapSize a /\
  _color a' = _color a /\ emitted a' = emitted a /\ _line a' = _line a.
Proof.
  unfold updateCapStyle.
  arrow_cases a; repeat split; congruence.
Qed.

(** The cap polygons as the code builds them, in any arithmetic. *)
Lemma updateCapStyle_polygon_as_built (a : Arrow qreal) :
  (_p1CapStyle a = ArrowCap ->
     option_map item_polygon (_p1Arrow (updateCapStyle a))
     = Some [ mkQPointF #0 #0;
              mkQPointF (_p1CapSize a * #2) (- _p1CapSize a);
              mkQPointF (_p1CapSize a * #2) (_p1CapSize a);
              mkQPointF #0 #0 ]) /\
  (_p2CapStyle a = ArrowCap ->
     option_map item_polygon (_p2Arrow (updateCapStyle a))
     = Some [ mkQPointF (- (_p2CapSize a * #2)) (#0 - _p2CapSize a);
              mkQPointF (- (_p2CapSize a * #2) + _p2CapSize a * #2) #0;
              mkQPointF (- (_p2CapSize a * #2)) (#0 + _p2CapSize a);
              mkQPointF (- (_p2CapSize a * #2)) (#0 - _p2CapSize a) ]).
Proof.
  unfold updateCapStyle.
  split; intros; arrow_cases a; reflexivity.
Qed.

(** In exact arithmetic, which binary64 is not, the vertex lists are
    [(0,0), (2s,-s), (2s,s), (0,0)] for the P1 cap and [(-2s,-s), (0,0),
    (-2s,s), (-2s,-s)] for the P2 cap, for every cap size [s]. *)
Lemma updateCapStyle_cap_polygon_exact {QE : QRealExact Q}
    (a : Arrow qreal) :
  let s1 := _p1CapSize a in
  let s2 := _p2CapSize a in
  (_p1CapStyle a = ArrowCap ->
     option_map item_polygon (_p1Arrow (updateCapStyle a))
     = Some [ mkQPointF #0 #0; mkQPointF (#2 * s1) (- s1);
              mkQPointF (#2 * s1) s1; mkQPointF #0 #0 ]) /\
  (_p2CapStyle a = ArrowCap ->
     option_map item_polygon (_p2Arrow (updateCapStyle a))
     = Some [ mkQPointF (- (#2 * s2)) (- s2); mkQPointF #0 #0;
              mkQPointF (- (#2 * s2)) s2; mkQPointF (- (#2 * s2)) (- s2) ]) /\
  (_p1CapStyle a = NoCap -> _p1Arrow (updateCapStyle a) = None) /\
  (_p2CapStyle a = NoCap -> _p2Arrow (updateCapStyle a) = None) /\
  (_p1CapStyle a = CircleCap ->
     _p1Arrow (updateCapStyle a)
     = option_map (setVisible false) (_p1Arrow a)) /\
  (_p2CapStyle a = CircleCap ->
     _p2Arrow (updateCapStyle a)
     = option_map (setVisible false) (_p2Arrow a)).
Proof.
  intros s1 s2.
  destruct (updateCapStyle_polygon_as_built a) as [B1 B2].
  split; [|split].
  - intro S. rewrite (B1 S). subst s1.
    now rewrite (qmul_comm (_p1CapSize a) #2).
  - intro S. rewrite (B2 S). subst s2.
    now rewrite qsub_0_l, qadd_0_l, qadd_opp_l, (qmul_comm (_p2CapSize a) #2).
  - unfold updateCapStyle.
    repeat split; intros; arrow_cases a; reflexivity.
Qed.

(** After [updateCapStyle] a [NoCap] end has no cap item and an [ArrowCap]
    end has one. *)
Lemma updateCapStyle_establishes_caps (a : Arrow qreal) :
  let a' := updateCapStyle a in
  (_p1CapStyle a' = NoCap -> _p1Arrow a' = None) /\
  (_p1CapStyle a' = ArrowCap -> _p1Arrow a' <> None) /\
  (_p2CapStyle a' = NoCap -> _p2Arrow a' = None) /\
  (_p2CapStyle a' = ArrowCap -> _p2Arrow a' <> None).
Proof.
  unfold updateCapStyle.
  arrow_cases a; repeat split; congruence.
Qed.

End UpdateCapStyle.

(** ** Arrow::setColor *)

Lemma QColor_eqb_eq (c d : QColor) : QColor_eqb c d = true <-> c = d.
Proof.
  destruct c as [r1 g1 b1 a1], d as [r2 g2 b2 a2]; unfold QColor_eqb; cbn.
  rewrite !andb_true_iff, !N.eqb_eq. split.
  - intros [[[-> ->] ->] ->]. reflexivity.
  - intros [= -> -> -> ->]. auto.
Qed.

Lemma QColor_eqb_refl (c : QColor) : QColor_eqb c c = true.
Proof. now apply QColor_eqb_eq. Qed.

Lemma QColor_eqb_neq (c d : QColor) : c <> d -> QColor_eqb c d = false.
Proof.
  intro H. destruct (QColor_eqb c d) eqn:E; [|reflexivity].
  now apply QColor_eqb_eq in E.
Qed.

Section SetColor.

Context {qreal : Type} {Q : QReal qreal}.

Lemma setColor_same (a : Arrow qreal) : setColor (_color a) a = a.
Proof. unfold setColor. now rewrite QColor_eqb_refl. Qed.

Lemma setColor_stores (a : Arrow qreal) (c : QColor) :
  _color (setColor c a) = c.
Proof.
  unfold setColor. destruct (QColor_eqb c (_color a)) eqn:E; cbn.
  - symmetry. now apply QColor_eqb_eq.
  - item_cases a; reflexivity.
Qed.

(** C10. [setColor( c )] with the current colour changes nothing and emits
    nothing.  With another colour it stores [c], hands the same [c] to the
    internal line and to each cap item that exists, and emits
    [colorChanged] once.  Hence calling it twice with [c] is the same as
    calling it once. *)
Theorem setColor_idempotent (a : Arrow qreal) (c : QColor) :
  (c = _color a -> setColor c a = a) /\
  (c <> _color a ->
     _color (setColor c a) = c /\
     _line (setColor c a) = Line_setColor c (_line a) /\
     _p1Arrow (setColor c a)
     = option_map (ConvexPolygon_setColor c) (_p1Arrow a) /\
     _p2Arrow (setColor c a)
     = option_map (ConvexPolygon_setColor c) (_p2Arrow a) /\
     emitted (setColor c a) = emitted a ++ [colorChanged]) /\
  setColor c (setColor c a) = setColor c a.
Proof.
  split; [|split].
  - intros ->. apply setColor_same.
  - intro Hne. unfold setColor. rewrite (QColor_eqb_neq Hne).
    item_cases a; auto.
  - rewrite <- (setColor_stores a c) at 1. apply setColor_same.
Qed.

End SetColor.

(** ** The cap sizes and the line width *)

Section CapSizes.

Context {qreal : Type} {Q : QReal qreal}.
Local Open Scope qreal_scope.

Lemma qMax_not_below {QO : QRealOrder Q} (h c : qreal) :
  (qMax h c <? h) = false.
Proof.
  unfold qMax. destruct (h <? c) eqn:E.
  - now apply qltb_asym.
  - apply qltb_irrefl.
Qed.

Lemma qMax_same (h : qreal) : qMax h h = h.
Proof. unfold qMax. now destruct (h <? h). Qed.

(** [updateCapStyle] followed by [updateGeometry], the tail of the cap
    setters, keeps the cap sizes and the line width. *)
Lemma relayout_frame (a : Arrow qreal) :
  let a' := updateGeometry (updateCapStyle a) in
  _p1CapSize a' = _p1CapSize a /\ _p2CapSize a' = _p2CapSize a /\
  getLineWidth a' = getLineWidth a.
Proof.
  cbv zeta. unfold getLineWidth.
  pose proof (updateGeometry_frame (updateCapStyle a)) as G.
  pose proof (updateCapStyle_frame a) as C. cbv zeta in G, C.
  destruct G as (_ & _ & _ & _ & G1 & G2 & _ & _ & GW & _).
  destruct C as (_ & _ & _ & _ & C1 & C2 & _ & _ & CL).
  rewrite G1, G2, GW, C1, C2, CL. auto.
Qed.

(** [setP1CapSize] stores its argument clamped up to half the line width,
    or stores nothing when the guard takes the clamped value for the
    current one.  It touches neither the other cap size nor the line
    width. *)
Lemma setP1CapSize_effect (capSize : qreal) (a : Arrow qreal) :
  let clamped := qMax (getLineWidth a / #2) capSize in
  let a' := setP1CapSize capSize a in
  _p2CapSize a' = _p2CapSize a /\ getLineWidth a' = getLineWidth a /\
  ((qFuzzyCompare (#1 + clamped) (#1 + _p1CapSize a) = false /\
    _p1CapSize a' = clamped) \/
   (qFuzzyCompare (#1 + clamped) (#1 + _p1CapSize a) = true /\ a' = a)).
Proof.
  cbv zeta. unfold setP1CapSize.
  destruct (qFuzzyCompare _ _) eqn:E; cbn [negb].
  - auto.
  - destruct (relayout_frame
                (emit p1CapSizeChanged
                   (with_p1CapSize (qMax (getLineWidth a / #2) capSize) a)))
      as (R1 & R2 & RW).
    rewrite R1, R2, RW. cbn. auto.
Qed.

Lemma setP2CapSize_effect (capSize : qreal) (a : Arrow qreal) :
  let clamped := qMax (getLineWidth a / #2) capSize in
  let a' := setP2CapSize capSize a in
  _p1CapSize a' = _p1CapSize a /\ getLineWidth a' = getLineWidth a /\
  ((qFuzzyCompare (#1 + clamped) (#1 + _p2CapSize a) = false /\
    _p2CapSize a' = clamped) \/
   (qFuzzyCompare (#1 + clamped) (#1 + _p2CapSize a) = true /\ a' = a)).
Proof.
  cbv zeta. unfold setP2CapSize.
  destruct (qFuzzyCompare _ _) eqn:E; cbn [negb].
  - auto.
  - destruct (relayout_frame
                (emit p2CapSizeChanged
                   (with_p2CapSize (qMax (getLineWidth a / #2) capSize) a)))
      as (R1 & R2 & RW).
    rewrite R1, R2, RW. cbn. auto.
Qed.

Lemma setP1CapSize_keeps_ok {QO : QRealOrder Q} (capSize : qreal)
    (a : Arrow qreal) :
  capSizesOk a -> capSizesOk (setP1CapSize capSize a).
Proof.
  intros [H1 H2].
  destruct (setP1CapSize_effect capSize a) as (E2 & EW & [[_ E1] | [_ E]]).
  - unfold capSizesOk, capSizeOk in *. rewrite E1, E2, EW. split.
    + left. apply qMax_not_below.
    + exact H2.
  - rewrite E. now split.
Qed.

Lemma setP2CapSize_keeps_ok {QO : QRealOrder Q} (capSize : qreal)
    (a : Arrow qreal) :
  capSizesOk a -> capSizesOk (setP2CapSize capSize a).
Proof.
  intros [H1 H2].
  destruct (setP2CapSize_effect capSize a) as (E1 & EW & [[_ E2] | [_ E]]).
  - unfold capSizesOk, capSizeOk in *. rewrite E1, E2, EW. split.
    + exact H1.
    + left. apply qMax_not_below.
  - rewrite E. now split.
Qed.

(** [setLineWidth] stores the width and brings both cap sizes within
    tolerance of it, whatever they were. *)
Lemma setLineWidth_establishes_ok {QO : QRealOrder Q} (w : qreal)
    (a : Arrow qreal) :
  getLineWidth (setLineWidth w a) = w /\ capSizesOk (setLineWidth w a).
Proof.
  unfold setLineWidth, getP1CapSize, getP2CapSize.
  set (a0 := with_line (Line_setLineWidth w (_line a)) a).
  assert (W0 : getLineWidth a0 = w) by reflexivity.
  (* the destination cap *)
  set (a1 := if _p2CapSize a0 <? w / #2
             then setP2CapSize (w / #2) a0 else a0).
  assert (S1 : getLineWidth a1 = w /\ capSizeOk a1 (_p2CapSize a1)).
  { subst a1. destruct (_p2CapSize a0 <? w / #2) eqn:B.
    - destruct (setP2CapSize_effect (w / #2) a0)
        as (E1 & EW & [[_ E2] | [F E]]).
      + unfold capSizeOk. rewrite E2, EW, W0, qMax_same.
        split; [reflexivity|]. left. apply qltb_irrefl.
      + rewrite E. rewrite W0, qMax_same in F.
        unfold capSizeOk. rewrite W0. auto.
    - unfold capSizeOk. rewrite W0. auto. }
  destruct S1 as (W1 & K2).
  (* the source cap *)
  set (a2 := if _p1CapSize a1 <? w / #2
             then setP1CapSize (w / #2) a1 else a1).
  assert (S2 : getLineWidth a2 = w /\ capSizesOk a2).
  { subst a2. destruct (_p1CapSize a1 <? w / #2) eqn:B.
    - destruct (setP1CapSize_effect (w / #2) a1)
        as (E2 & EW & [[_ E1] | [F E]]).
      + unfold capSizesOk, capSizeOk in *.
        rewrite E1, E2, EW, W1, qMax_same. rewrite W1 in K2.
        split; [reflexivity|]. split; [left; apply qltb_irrefl | exact K2].
      + rewrite E. rewrite W1, qMax_same in F.
        unfold capSizesOk, capSizeOk in *. rewrite W1 in *. auto.
    - unfold capSizesOk, capSizeOk in *. rewrite W1 in *. auto. }
  exact S2.
Qed.

(** When the guard takes both cap sizes for half the new width,
    [setLineWidth] stores the width and nothing else. *)
Lemma setLineWidth_within_tolerance (w : qreal) (a : Arrow qreal) :
  qFuzzyCompare (#1 + w / #2) (#1 + _p2CapSize a) = true ->
  qFuzzyCompare (#1 + w / #2) (#1 + _p1CapSize a) = true ->
  setLineWidth w a
  = emit lineWidthChanged (with_line (Line_setLineWidth w (_line a)) a).
Proof.
  intros F2 F1.
  unfold setLineWidth, getP1CapSize, getP2CapSize.
  set (a0 := with_line (Line_setLineWidth w (_line a)) a).
  assert (E2 : setP2CapSize (w / #2) a0 = a0).
  { unfold setP2CapSize.
    change (getLineWidth a0) with w. change (_p2CapSize a0) with (_p2CapSize a).
    now rewrite qMax_same, F2. }
  assert (E1 : setP1CapSize (w / #2) a0 = a0).
  { unfold setP1CapSize.
    change (getLineWidth a0) with w. change (_p1CapSize a0) with (_p1CapSize a).
    now rewrite qMax_same, F1. }
  cbv zeta. rewrite E2.
  replace (if _p2CapSize a0 <? w / #2 then a0 else a0) with a0
    by now destruct (_p2CapSize a0 <? w / #2).
  rewrite E1. now destruct (_p1CapSize a0 <? w / #2).
Qed.

Lemma runOp_keeps_ok {QO : QRealOrder Q} (op : ArrowOp qreal)
    (a : Arrow qreal) :
  capSizesOk a -> capSizesOk (runOp op a).
Proof.
  intro H. destruct op; cbn [runOp].
  - (* setColor *)
    unfold setColor. destruct (negb _); [|exact H].
    unfold capSizesOk, capSizeOk, getLineWidth in *.
    item_cases a; exact H.
  - (* setP1 *)
    unfold setP1.
    pose proof (updateGeometry_frame (with_p1 p1 a)) as G. cbv zeta in G.
    destruct G as (_ & _ & _ & _ & G1 & G2 & _ & _ & GW & _).
    unfold capSizesOk, capSizeOk, getLineWidth in *. cbn.
    now rewrite G1, G2, GW.
  - (* setP2 *)
    unfold setP2.
    pose proof (updateGeometry_frame (with_p2 p2 a)) as G. cbv zeta in G.
    destruct G as (_ & _ & _ & _ & G1 & G2 & _ & _ & GW & _).
    unfold capSizesOk, capSizeOk, getLineWidth in *. cbn.
    now rewrite G1, G2, GW.
  - apply setLineWidth_establishes_ok.
  - (* setP1CapStyle *)
    unfold setP1CapStyle. destruct (negb _); [|exact H].
    destruct (relayout_frame (emit p1CapStyleChanged (with_p1CapStyle s a)))
      as (R1 & R2 & RW).
    unfold capSizesOk, capSizeOk in *. now rewrite R1, R2, RW.
  - (* setP2CapStyle *)
    unfold setP2CapStyle. destruct (negb _); [|exact H].
    destruct (relayout_frame (emit p2CapStyleChanged (with_p2CapStyle s a)))
      as (R1 & R2 & RW).
    unfold capSizesOk, capSizeOk in *. now rewrite R1, R2, RW.
  - now apply setP1CapSize_keeps_ok.
  - now apply setP2CapSize_keeps_ok.
  - (* updateCapStyle *)
    pose proof (updateCapStyle_frame a) as C. cbv zeta in C.
    destruct C as (_ & _ & _ & _ & C1 & C2 & _ & _ & CL).
    unfold capSizesOk, capSizeOk, getLineWidth in *.
    now rewrite C1, C2, CL.
  - (* updateGeometry *)
    pose proof (updateGeometry_frame a) as G. cbv zeta in G.
    destruct G as (_ & _ & _ & _ & G1 & G2 & _ & _ & GW & _).
    unfold capSizesOk, capSizeOk, getLineWidth in *.
    now rewrite G1, G2, GW.
Qed.

(** C9, amended. Across every operation of [Arrow] each cap size stays
    within the guard's tolerance of the bound: it is not below
    [lineWidth / 2], or [qFuzzyCompare( 1 + lineWidth / 2, 1 + capSize )]
    holds.  [setP1CapSize] and [setP2CapSize] clamp their argument up to
    [lineWidth / 2] and store the clamped value, unless the guard takes it
    for the current one and nothing is stored; [setLineWidth] stores the
    width and brings both cap sizes within tolerance of it. *)
Theorem capSizes_ok_invariant {QO : QRealOrder Q} (a : Arrow qreal) :
  (forall capSize,
     let clamped := qMax (getLineWidth a / #2) capSize in
     (clamped <? getLineWidth a / #2) = false /\
     if qFuzzyCompare (#1 + clamped) (#1 + _p1CapSize a)
     then setP1CapSize capSize a = a
     else _p1CapSize (setP1CapSize capSize a) = clamped) /\
  (forall capSize,
     let clamped := qMax (getLineWidth a / #2) capSize in
     (clamped <? getLineWidth a / #2) = false /\
     if qFuzzyCompare (#1 + clamped) (#1 + _p2CapSize a)
     then setP2CapSize capSize a = a
     else _p2CapSize (setP2CapSize capSize a) = clamped) /\
  (forall w,
     getLineWidth (setLineWidth w a) = w /\ capSizesOk (setLineWidth w a)) /\
  (capSizesOk a -> forall ops, capSizesOk (runOps ops a)).
Proof.
  split; [|split; [|split]].
  - intro capSize. cbv zeta. split; [apply qMax_not_below|].
    destruct (setP1CapSize_effect capSize a)
      as (_ & _ & [[-> E] | [-> E]]); exact E.
  - intro capSize. cbv zeta. split; [apply qMax_not_below|].
    destruct (setP2CapSize_effect capSize a)
      as (_ & _ & [[-> E] | [-> E]]); exact E.
  - intro w. apply setLineWidth_establishes_ok.
  - intros H ops. revert a H. unfold runOps.
    induction ops as [|op ops IH]; intros a H; cbn [fold_left].
    + exact H.
    + apply IH. now apply runOp_keeps_ok.
Qed.

End CapSizes.

(** ** What the geometry depends on *)

Section GeometryInputs.

Context {qreal : Type} {Q : QReal qreal}.
Local Open Scope qreal_scope.

(** C5, amended. Two runs of [updateGeometry] produce the same line
    endpoints, cap positions and cap rotations when the arrows agree on the
    endpoints, the cap sizes and the two cap styles, neither style is
    [CircleCap], the cap items are as [updateCapStyle] leaves them, and the
    endpoints are at least 0.0001 apart. *)
Theorem updateGeometry_outputs_determined {QO : QRealOrder Q}
    (a b : Arrow qreal) :
  sameDeclaredInputs a b ->
  _p1CapStyle a = _p1CapStyle b -> _p2CapStyle a = _p2CapStyle b ->
  _p1CapStyle a <> CircleCap -> _p2CapStyle a <> CircleCap ->
  capsEstablished a -> capsEstablished b ->
  (lit_0_0001 <=? length (mkQLineF (_p1 a) (_p2 a))) = true ->
  geometryOutputs (updateGeometry a) = geometryOutputs (updateGeometry b).
Proof.
  destruct a as [ca p1a p2a s1a s2a z1a z2a la i1a i2a ea],
    b as [cb p1b p2b s1b s2b z1b z2b lb i1b i2b eb].
  unfold sameDeclaredInputs, capsEstablished. cbn.
  intros (<- & <- & <- & <-) <- <- N1 N2 (A1 & A2 & A3 & A4)
    (B1 & B2 & B3 & B4) Hlen.
  apply long_line_passes_guard in Hlen.
  unfold updateGeometry, getP1CapStyle, getP2CapStyle. cbn. rewrite Hlen.
  destruct s1a; [| |congruence]; destruct s2a; try congruence;
    try (specialize (A1 eq_refl)); try (specialize (A2 eq_refl));
    try (specialize (A3 eq_refl)); try (specialize (A4 eq_refl));
    try (specialize (B1 eq_refl)); try (specialize (B2 eq_refl));
    try (specialize (B3 eq_refl)); try (specialize (B4 eq_refl));
    subst; cbn;
    repeat match goal with
           | H : ?i <> None |- _ => destruct i; [clear H | congruence]
           end;
    reflexivity.
Qed.

End GeometryInputs.

(** ** qan::Node *)

Section NodeProperties.

Context {qreal : Type} {Q : QReal qreal}.
Variable GenNode : Type.

(** An emission is visible: the trace grows. *)
Lemma node_emit_grows (s : NodeSignal) (n : Node qreal GenNode) :
  node_emit s n <> n.
Proof.
  intro H.
  apply (f_equal (fun m => List.length (node_emitted m))) in H.
  cbn in H. rewrite List.length_app in H. cbn in H. lia.
Qed.

(** C7. The property setters of [qan::Node] store and notify: after
    [setLabel( v )], [getLabel()] is [v] and [labelChanged] has been
    emitted, whatever the label was before, so even a call with the current
    label is no no-op; the same holds of [setDraggable], [setDropable],
    [setDragActive] and [setMinimumSize] with their getters and signals.
    None of them touches the gtpo base sub-object, where the graph
    structure lives. *)
Theorem node_setters_store_and_notify (n : Node qreal GenNode) :
  (forall v,
     getLabel (setLabel v n) = v /\
     node_emitted (setLabel v n) = node_emitted n ++ [labelChanged] /\
     gtpo_base (setLabel v n) = gtpo_base n) /\
  (forall v,
     getDraggable (setDraggable v n) = v /\
     node_emitted (setDraggable v n) = node_emitted n ++ [draggableChanged] /\
     gtpo_base (setDraggable v n) = gtpo_base n) /\
  (forall v,
     getDropable (setDropable v n) = v /\
     node_emitted (setDropable v n) = node_emitted n ++ [dropableChanged] /\
     gtpo_base (setDropable v n) = gtpo_base n) /\
  (forall v,
     getDragActive (setDragActive v n) = v /\
     node_emitted (setDragActive v n)
     = node_emitted n ++ [dragActiveChanged] /\
     gtpo_base (setDragActive v n) = gtpo_base n) /\
  (forall v,
     getMinimumSize (setMinimumSize v n) = v /\
     node_emitted (setMinimumSize v n)
     = node_emitted n ++ [minimumSizeChanged] /\
     gtpo_base (setMinimumSize v n) = gtpo_base n) /\
  setLabel (getLabel n) n <> n /\
  setDraggable (getDraggable n) n <> n /\
  setDropable (getDropable n) n <> n /\
  setDragActive (getDragActive n) n <> n /\
  setMinimumSize (getMinimumSize n) n <> n.
Proof.
  repeat split; destruct n; apply node_emit_grows.
Qed.

(** Each of these setters leaves the other four properties as they were. *)
Lemma node_setters_independent (n : Node qreal GenNode) (l : string)
    (b : bool) (z : QSizeF qreal) :
  let others (m : Node qreal GenNode) :=
    (getDraggable m, getDropable m, getDragActive m, getMinimumSize m) in
  others (setLabel l n) = others n /\
  getLabel (setDraggable b n) = getLabel n /\
  getLabel (setDropable b n) = getLabel n /\
  getLabel (setDragActive b n) = getLabel n /\
  getLabel (setMinimumSize z n) = getLabel n.
Proof. repeat split. Qed.

End NodeProperties.

(** ** qan::ProgressNotifier *)

(** C6. Constructing [qan::ProgressNotifier( parent )] hands [parent] to
    the [QObject] base, a null super-notifier to the
    [gtpo::ProgressNotifier] base, and does nothing else: the object is
    exactly these two initialised bases. *)
Theorem ProgressNotifier_new_forwards (QObjectPtr NotifierPtr : Type)
    (p : option QObjectPtr) :
  let this := ProgressNotifier_new NotifierPtr p in
  parent (base_QObject this) = p /\
  superProgressNotifier (base_gtpo this) = None /\
  this = mkProgressNotifier (mkQObject p) (mk_gtpo_ProgressNotifier None).
Proof. repeat split. Qed.

(** ** The statements at work on sample arrows *)

Module Runs.
Import Binary64 Binary64Laws Samples.

#[local] Set Warnings "-inexact-float".
Local Open Scope qreal_scope.

(** The segment from (0,0) to (3,4) has length 5; with caps of size 1 the
    internal line runs between the parameters 2/5 and 1 - 2/5. *)
Lemma updateGeometry_truncates_line_witness :
  (lit_0_0001 <=? length (mkQLineF (pt 0 0) (pt 3 4))) = true /\
  Line_p1 (_line (updateGeometry arrow345))
  = pointAt (mkQLineF (pt 0 0) (pt 3 4)) (1 * 2 / 5)%float /\
  Line_p2 (_line (updateGeometry arrow345))
  = pointAt (mkQLineF (pt 0 0) (pt 3 4)) (1 - 1 * 2 / 5)%float.
Proof.
  split; [reflexivity|].
  destruct (updateGeometry_truncates_line (QO := binary64_order) arrow345
              eq_refl) as (_ & H1 & _ & H2).
  split; [apply H1 | apply H2]; (reflexivity || discriminate).
Defined.

(** There [dy = 4 > 0], so both caps are rotated by [acos(3/5)] in
    degrees. *)
Lemma updateGeometry_cap_rotation_witness :
  (lit_0_0001 <=? length (mkQLineF (pt 0 0) (pt 3 4))) = true /\
  (#0 <? dy (mkQLineF (pt 0 0) (pt 3 4))) = true /\
  option_map item_rotation (_p1Arrow (updateGeometry arrow345))
  = Some (qacos (3 / 5)%float * #180 / Pi) /\
  option_map item_rotation (_p2Arrow (updateGeometry arrow345))
  = Some (qacos (3 / 5)%float * #180 / Pi).
Proof.
  split; [reflexivity|]. split; [reflexivity|].
  destruct (updateGeometry_cap_rotation (QO := binary64_order) arrow345
              (theta := qacos (3 / 5)%float) eq_refl
              (or_introl (conj eq_refl eq_refl))) as (H1 & H2).
  split; [apply H1 | apply H2]; (reflexivity || discriminate).
Defined.

Lemma updateGeometry_cap_position_witness :
  (lit_0_0001 <=? length (mkQLineF (pt 0 0) (pt 3 4))) = true /\
  option_map (fun i => (item_x i, item_y i, item_transformOrigin i))
    (_p1Arrow (updateGeometry arrow345))
  = Some (0%float, 0%float, TopLeft) /\
  option_map (fun i => (item_x i, item_y i, item_transformOrigin i))
    (_p2Arrow (updateGeometry arrow345))
  = Some (3%float, 4%float, TopLeft).
Proof.
  split; [reflexivity|].
  destruct (updateGeometry_cap_position (QO := binary64_order) arrow345
              eq_refl) as (H1 & H2).
  split; [apply H1 | apply H2]; (reflexivity || discriminate).
Defined.

(** C5 as stated fails: arrows that agree on the two endpoints and the cap
    sizes still differ in the outputs of [updateGeometry] when their cap
    styles differ, when the style is [CircleCap] and the earlier layouts
    differ, or when the endpoints coincide and the earlier layouts differ. *)
Lemma updateGeometry_outputs_need_more_counterexample :
  (sameDeclaredInputs arrow345 arrow345_plain_p2 /\
   Line_p2 (_line (updateGeometry arrow345))
   = pointAt (mkQLineF (pt 0 0) (pt 3 4)) (1 - 1 * 2 / 5)%float /\
   Line_p2 (_line (updateGeometry arrow345_plain_p2)) = pt 3 4 /\
   geometryOutputs (updateGeometry arrow345)
   <> geometryOutputs (updateGeometry arrow345_plain_p2)) /\
  (sameDeclaredInputs (circle345 line0) (circle345 line_laid_out) /\
   geometryOutputs (updateGeometry (circle345 line0))
   <> geometryOutputs (updateGeometry (circle345 line_laid_out))) /\
  (sameDeclaredInputs (dot line0) (dot line_laid_out) /\
   geometryOutputs (updateGeometry (dot line0))
   <> geometryOutputs (updateGeometry (dot line_laid_out))).
Proof.
  repeat split; try intro H.
  - apply (f_equal (fun o => x (snd (fst (fst o))) <? #3)) in H.
    vm_compute in H. discriminate.
  - apply (f_equal (fun o => x (snd (fst (fst o))) <? #3)) in H.
    vm_compute in H. discriminate.
  - apply (f_equal (fun o => x (snd (fst (fst o))) <? #3)) in H.
    vm_compute in H. discriminate.
Qed.

Lemma updateGeometry_outputs_determined_witness :
  geometryOutputs (updateGeometry arrow345)
  = geometryOutputs (updateGeometry (setColor white arrow345)).
Proof.
  apply (updateGeometry_outputs_determined (QO := binary64_order)
           (a := arrow345) (b := setColor white arrow345));
    try reflexivity; try discriminate;
    repeat split; discriminate.
Defined.

(** On coinciding endpoints the arrow is left as it was. *)
Lemma updateGeometry_short_line_witness :
  (length (mkQLineF (pt 0 0) (pt 0 0)) <? lit_0_0001) = true /\
  updateGeometry (dot line_laid_out) = dot line_laid_out.
Proof.
  split; [reflexivity|].
  exact (proj1 (updateGeometry_short_line (dot line_laid_out)) eq_refl).
Defined.

(** C9 as stated fails: with line width 2 and cap sizes 1 the bound
    [capSize >= lineWidth / 2] holds; raising the width to 2.000000000001
    leaves both cap sizes at 1, below the new half width, because the guard
    of the cap setters takes [1 + 1.0000000000005] and [1 + 1] for equal.
    The setters alone lead there from an arrow of width 1 with caps of
    size 4. *)
Lemma capSizes_bound_broken_counterexample :
  capSizesCoverLineWidth arrow345 /\
  _p1CapSize (setLineWidth width_just_above_2 arrow345) = 1%float /\
  _p2CapSize (setLineWidth width_just_above_2 arrow345) = 1%float /\
  (1 <? width_just_above_2 / 2)%float = true /\
  ~ capSizesCoverLineWidth (setLineWidth width_just_above_2 arrow345) /\
  capSizesCoverLineWidth arrow_thin /\
  capSizesCoverLineWidth (runOps widen_then_shrink_caps arrow_thin) /\
  ~ capSizesCoverLineWidth
      (runOps (widen_then_shrink_caps ++ [OpSetLineWidth width_just_above_2])
         arrow_thin).
Proof.
  split; [split; reflexivity|].
  do 3 (split; [reflexivity|]).
  split; [intros [H _]; vm_compute in H; discriminate|].
  split; [split; reflexivity|].
  split; [split; reflexivity|].
  intros [H _]. vm_compute in H. discriminate.
Qed.

Lemma capSizes_ok_invariant_witness :
  capSizesOk arrow345 /\
  capSizesOk (runOps [OpSetLineWidth width_just_above_2;
                      OpSetP1CapSize 0.5%float;
                      OpSetP2 (pt 6 8)] arrow345).
Proof.
  assert (H0 : capSizesOk arrow345) by (split; left; reflexivity).
  split; [exact H0|].
  exact (proj2 (proj2 (proj2
           (capSizes_ok_invariant (QO := binary64_order) arrow345))) H0 _).
Defined.

(** C8 as stated fails in binary64, where a length that is not below
    0.0001 need not be at least 0.0001: the length of [arrow_nan] is not a
    number, so it is neither; [updateGeometry] lays the arrow out and
    divides by the length.
    A division that is the quotient on every divisor of at least 0.0001
    (and on [Pi]) and 0 elsewhere gives another arrow: the start of the
    internal line gets the ordinate 0 where the code computes NaN. *)
Lemma updateGeometry_divides_by_nan_counterexample :
  PrimFloat.is_nan (length (mkQLineF (_p1 arrow_nan) (_p2 arrow_nan)))
  = true /\
  (length (mkQLineF (_p1 arrow_nan) (_p2 arrow_nan)) <? lit_0_0001)
  = false /\
  (lit_0_0001 <=? length (mkQLineF (_p1 arrow_nan) (_p2 arrow_nan)))
  = false /\
  (forall u d : float,
     (lit_0_0001 <=? d) = true \/ d = Pi ->
     div_at_least_0_0001 u d = u / d) /\
  updateGeometry (Q := with_qdiv binary64 div_at_least_0_0001) arrow_nan
  <> updateGeometry arrow_nan /\
  PrimFloat.is_nan (y (Line_p1 (_line (updateGeometry arrow_nan)))) = true /\
  y (Line_p1 (_line (updateGeometry
                       (Q := with_qdiv binary64 div_at_least_0_0001)
                       arrow_nan))) = 0%float.
Proof.
  do 3 (split; [reflexivity|]).
  split.
  { intros u d [H | ->]; unfold div_at_least_0_0001.
    - cbn [qleb lit_0_0001 binary64] in H. now rewrite H.
    - reflexivity. }
  split; [|split; reflexivity].
  intro H.
  apply (f_equal (fun a => PrimFloat.is_nan (y (Line_p1 (_line a))))) in H.
  vm_compute in H. discriminate.
Qed.

End Runs.

Module ExactRuns.
Import Exact ExactLaws ExactSamples.

(** In exact arithmetic the cap polygons of an arrow with cap sizes 1. *)
Lemma cap_polygon_exact_at_size_1 :
  option_map item_polygon (_p1Arrow (updateCapStyle arrowR))
  = Some [ ptR 0 0; ptR (2 * 1) (- 1); ptR (2 * 1) 1; ptR 0 0 ] /\
  option_map item_polygon (_p2Arrow (updateCapStyle arrowR))
  = Some [ ptR (- (2 * 1)) (- 1); ptR 0 0; ptR (- (2 * 1)) 1;
           ptR (- (2 * 1)) (- 1) ].
Proof.
  destruct (updateCapStyle_cap_polygon_exact (QE := reals_exact) arrowR)
    as (H1 & H2 & _).
  split; [exact (H1 eq_refl) | exact (H2 eq_refl)].
Qed.

Local Open Scope R_scope.

Lemma scaled_length (u v t : R) :
  0 <= t ->
  sqrt (u * t * (u * t) + v * t * (v * t)) = t * sqrt (u * u + v * v).
Proof.
  intro Ht.
  replace (u * t * (u * t) + v * t * (v * t))
    with (t * t * (u * u + v * v)) by ring.
  rewrite sqrt_mult_alt by nra.
  now rewrite sqrt_square.
Qed.

(** In exact arithmetic the two parameters of C1 put the ends of the
    internal line at distance [2 * s] from [p1], resp. from [p2], on the
    segment. *)
Lemma truncation_pulls_back (p1 p2 : QPointF R) (s : R) :
  let l := mkQLineF p1 p2 in
  0 < length l -> 0 <= s ->
  length (mkQLineF p1 (pointAt l (s * 2 / length l))) = 2 * s /\
  length (mkQLineF (pointAt l (1 - s * 2 / length l)) p2) = 2 * s.
Proof.
  intros l Hl Hs.
  assert (Ht : 0 <= s * 2 / length l).
  { apply Rmult_le_pos; [lra|]. left. now apply Rinv_0_lt_compat. }
  revert Hl Ht. subst l. unfold length, pointAt.
  cbn [qadd qsub qmul qdiv qsqrt reals pt1 pt2 x y].
  set (L := sqrt _). intros Hl Ht.
  split.
  - replace (x p1 + (x p2 - x p1) * (s * 2 / L) - x p1)
      with ((x p2 - x p1) * (s * 2 / L)) by ring.
    replace (y p1 + (y p2 - y p1) * (s * 2 / L) - y p1)
      with ((y p2 - y p1) * (s * 2 / L)) by ring.
    rewrite scaled_length by exact Ht. fold L.
    change (s * 2 / L * L = 2 * s). field. lra.
  - replace (x p2 - (x p1 + (x p2 - x p1) * (1 - s * 2 / L)))
      with ((x p2 - x p1) * (s * 2 / L)) by ring.
    replace (y p2 - (y p1 + (y p2 - y p1) * (1 - s * 2 / L)))
      with ((y p2 - y p1) * (s * 2 / L)) by ring.
    rewrite scaled_length by exact Ht. fold L.
    change (s * 2 / L * L = 2 * s). field. lra.
Qed.

(** The comparisons of the reals on given numbers. *)
Lemma Rltb_true (u v : R) : u < v -> Rltb u v = true.
Proof. intro H. unfold Rltb. now destruct (Rlt_dec u v). Qed.

Lemma Rltb_false (u v : R) : ~ u < v -> Rltb u v = false.
Proof. intro H. unfold Rltb. now destruct (Rlt_dec u v). Qed.

Lemma Rleb_true (u v : R) : u <= v -> Rleb u v = true.
Proof. intro H. unfold Rleb. now destruct (Rle_dec u v). Qed.

Lemma Rleb_false (u v : R) : ~ u <= v -> Rleb u v = false.
Proof. intro H. unfold Rleb. now destruct (Rle_dec u v). Qed.

Ltac eval_cmp :=
  repeat (match goal with
          | |- context [Rltb ?u ?v] =>
              first [ rewrite (@Rltb_true u v) by lra
                    | rewrite (@Rltb_false u v) by lra ]
          | |- context [Rleb ?u ?v] =>
              first [ rewrite (@Rleb_true u v) by lra
                    | rewrite (@Rleb_false u v) by lra ]
          end; cbn [negb]).

(** The tolerance of the cap setters is no rounding effect: in exact
    arithmetic too, raising the width from 2 to 2 + 1e-12 stores the width
    and nothing else, and leaves the cap sizes 1 below the new half
    width. *)
Lemma setLineWidth_keeps_caps_in_reals :
  setLineWidth widthR_just_above_2 arrowR
  = emit lineWidthChanged
      (with_line (Line_setLineWidth widthR_just_above_2 (_line arrowR))
         arrowR).
Proof.
  apply setLineWidth_within_tolerance;
    unfold qFuzzyCompare, qMin, qAbs, widthR_just_above_2, arrowR;
    cbn [_p1CapSize _p2CapSize qadd qsub qmul qdiv qopp qltb qleb lit reals];
    eval_cmp; reflexivity.
Qed.

Lemma capSizes_bound_broken_in_reals :
  capSizesCoverLineWidth arrowR /\
  ~ capSizesCoverLineWidth (setLineWidth widthR_just_above_2 arrowR).
Proof.
  split.
  - unfold capSizesCoverLineWidth, getLineWidth, arrowR.
    cbn [_line _p1CapSize _p2CapSize Line_lineWidth qdiv qleb lit reals].
    split; apply Rleb_true; lra.
  - rewrite setLineWidth_keeps_caps_in_reals. intros [H _]. revert H.
    unfold capSizesCoverLineWidth, getLineWidth, arrowR,
      widthR_just_above_2.
    cbn [emit with_line Line_setLineWidth _line _p1CapSize _p2CapSize
         Line_lineWidth qdiv qleb lit reals].
    rewrite Rleb_false by lra. discriminate.
Qed.

End ExactRuns.

(** * The rest of the code: constructor, setters and layout together *)

(** ** Layout and styling, end by end *)

Section PerEnd.

Context {qreal : Type} {Q : QReal qreal}.
Local Open Scope qreal_scope.

Lemma updateGeometry_p1_end (b : Arrow qreal) :
  let line := mkQLineF (_p1 b) (_p2 b) in
  (length line <? lit_0_0001) = false ->
  Line_p1 (_line (updateGeometry b))
  = match _p1CapStyle b, _p1Arrow b with
    | NoCap, _ => _p1 b
    | ArrowCap, Some _ => pointAt line (_p1CapSize b * #2 / length line)
    | _, _ => Line_p1 (_line b)
    end /\
  _p1Arrow (updateGeometry b)
  = match _p1CapStyle b, _p1Arrow b with
    | ArrowCap, Some i => Some (placedAt (_p1 b) (capRotation line) i)
    | _, i => i
    end.
Proof.
  cbv zeta. intro G. unfold updateGeometry. cbv zeta. rewrite G.
  arrow_cases b; split; reflexivity.
Qed.

Lemma updateGeometry_p2_end (b : Arrow qreal) :
  let line := mkQLineF (_p1 b) (_p2 b) in
  (length line <? lit_0_0001) = false ->
  Line_p2 (_line (updateGeometry b))
  = match _p2CapStyle b, _p2Arrow b with
    | NoCap, _ => _p2 b
    | ArrowCap, Some _ =>
        pointAt line (#1 - (_p2CapSize b * #2 / length line))
    | _, _ => Line_p2 (_line b)
    end /\
  _p2Arrow (updateGeometry b)
  = match _p2CapStyle b, _p2Arrow b with
    | ArrowCap, Some i => Some (placedAt (_p2 b) (capRotation line) i)
    | _, i => i
    end.
Proof.
  cbv zeta. intro G. unfold updateGeometry. cbv zeta. rewrite G.
  arrow_cases b; split; reflexivity.
Qed.

Lemma updateCapStyle_ends (b : Arrow qreal) :
  _p1Arrow (updateCapStyle b)
  = match _p1CapStyle b, _p1Arrow b with
    | NoCap, _ => None
    | ArrowCap, Some i => Some (dressed (capTriangleP1 (_p1CapSize b)) i)
    | ArrowCap, None =>
        Some (dressed (capTriangleP1 (_p1CapSize b))
                (@new_ConvexPolygon qreal Q))
    | CircleCap, i => option_map (setVisible false) i
    end /\
  _p2Arrow (updateCapStyle b)
  = match _p2CapStyle b, _p2Arrow b with
    | NoCap, _ => None
    | ArrowCap, Some i => Some (dressed (capTriangleP2 (_p2CapSize b)) i)
    | ArrowCap, None =>
        Some (dressed (capTriangleP2 (_p2CapSize b))
                (@new_ConvexPolygon qreal Q))
    | CircleCap, i => option_map (setVisible false) i
    end.
Proof.
  unfold updateCapStyle. arrow_cases b; split; reflexivity.
Qed.

End PerEnd.

(** ** Cap items follow the cap styles and cap sizes *)

Section CapsInSync.

Context {qreal : Type} {Q : QReal qreal}.
Local Open Scope qreal_scope.

Lemma updateCapStyle_in_sync (a : Arrow qreal) :
  capsInSync (updateCapStyle a).
Proof.
  unfold capsInSync.
  pose proof (updateCapStyle_frame a) as F. cbv zeta in F.
  destruct F as (_ & _ & -> & -> & -> & -> & _).
  destruct (updateCapStyle_ends a) as [-> ->].
  split;
    [destruct (_p1CapStyle a), (_p1Arrow a)
    |destruct (_p2CapStyle a), (_p2Arrow a)]; cbn; auto.
Qed.

Lemma updateGeometry_keeps_sync (a : Arrow qreal) :
  capsInSync a -> capsInSync (updateGeometry a).
Proof.
  unfold capsInSync, updateGeometry.
  destruct (length _ <? lit_0_0001); [auto|].
  arrow_cases a; auto.
Qed.

Lemma setColor_keeps_sync (c : QColor) (a : Arrow qreal) :
  capsInSync a -> capsInSync (setColor c a).
Proof.
  unfold setColor. destruct (negb _); [|auto].
  unfold capsInSync. arrow_cases a; auto.
Qed.

Lemma emit_keeps_sync (s : ArrowSignal) (a : Arrow qreal) :
  capsInSync a -> capsInSync (emit s a).
Proof. exact (fun H => H). Qed.

Lemma relayout_in_sync (a : Arrow qreal) :
  capsInSync (updateGeometry (updateCapStyle a)).
Proof. apply updateGeometry_keeps_sync, updateCapStyle_in_sync. Qed.

Lemma setP1CapSize_keeps_sync (capSize : qreal) (a : Arrow qreal) :
  capsInSync a -> capsInSync (setP1CapSize capSize a).
Proof.
  intro H. unfold setP1CapSize. destruct (negb _); [|exact H].
  apply relayout_in_sync.
Qed.

Lemma setP2CapSize_keeps_sync (capSize : qreal) (a : Arrow qreal) :
  capsInSync a -> capsInSync (setP2CapSize capSize a).
Proof.
  intro H. unfold setP2CapSize. destruct (negb _); [|exact H].
  apply relayout_in_sync.
Qed.

Lemma runOp_keeps_sync (op : ArrowOp qreal) (a : Arrow qreal) :
  capsInSync a -> capsInSync (runOp op a).
Proof.
  intro H. destruct op; cbn [runOp].
  - now apply setColor_keeps_sync.
  - unfold setP1. apply emit_keeps_sync.
    apply updateGeometry_keeps_sync. exact H.
  - unfold setP2. apply emit_keeps_sync.
    apply updateGeometry_keeps_sync. exact H.
  - unfold setLineWidth. apply emit_keeps_sync.
    assert (H0 : capsInSync
                   (with_line (Line_setLineWidth lineWidth (_line a)) a))
      by exact H.
    set (a0 := with_line _ a) in *.
    assert (H1 : capsInSync
                   (if getP2CapSize a0 <? lineWidth / #2
                    then setP2CapSize (lineWidth / #2) a0 else a0)).
    { destruct (_ <? _); [now apply setP2CapSize_keeps_sync | exact H0]. }
    set (a1 := if _ <? _ then _ else _) in *.
    destruct (getP1CapSize a1 <? lineWidth / #2);
      [now apply setP1CapSize_keeps_sync | exact H1].
  - unfold setP1CapStyle. destruct (negb _); [|exact H].
    apply relayout_in_sync.
  - unfold setP2CapStyle. destruct (negb _); [|exact H].
    apply relayout_in_sync.
  - now apply setP1CapSize_keeps_sync.
  - now apply setP2CapSize_keeps_sync.
  - apply updateCapStyle_in_sync.
  - now apply updateGeometry_keeps_sync.
Qed.

Lemma runOps_keeps_sync (ops : list (ArrowOp qreal)) (a : Arrow qreal) :
  capsInSync a -> capsInSync (runOps ops a).
Proof.
  revert a. unfold runOps.
  induction ops as [|op ops IH]; intros a H; cbn [fold_left].
  - exact H.
  - apply IH. now apply runOp_keeps_sync.
Qed.

(** X1. The constructor leaves the cap items in step with whatever default
    cap styles and sizes the members were initialised with: no item at a
    [NoCap] end, a visible triangle of the cap size with border width 2 at
    an [ArrowCap] end, nothing visible at a [CircleCap] end.  It installs
    the fresh internal line, sets [ItemHasContents] and emits no signal. *)
Theorem constructor_puts_caps_in_sync (initialised : Arrow qreal)
    (fresh_line : Line qreal) :
  let item := Arrow_new initialised fresh_line in
  capsInSync (members item) /\
  ItemHasContents item = true /\
  _line (members item) = fresh_line /\
  emitted (members item) = emitted initialised.
Proof.
  cbv zeta. unfold Arrow_new. cbn [members ItemHasContents].
  split; [apply updateCapStyle_in_sync|]. split; [reflexivity|].
  pose proof (updateCapStyle_frame (with_line fresh_line initialised)) as F.
  cbv zeta in F. destruct F as (_ & _ & _ & _ & _ & _ & _ & FE & FL).
  now rewrite FE, FL.
Qed.

(** X2. Whatever methods are called on a constructed arrow, in whatever
    order and with whatever arguments, the cap items stay in step with the
    cap styles and cap sizes: the arrow head on screen is the triangle of
    the current cap size. *)
Theorem caps_stay_in_sync (initialised : Arrow qreal) (fresh_line : Line qreal)
    (ops : list (ArrowOp qreal)) :
  capsInSync (runOps ops (members (Arrow_new initialised fresh_line))).
Proof.
  apply runOps_keeps_sync. unfold Arrow_new. cbn [members].
  apply updateCapStyle_in_sync.
Qed.

End CapsInSync.

(** ** Layout, styling and the cap setters composed *)

Section Composed.

Context {qreal : Type} {Q : QReal qreal}.
Local Open Scope qreal_scope.

(** X3. Laying out twice is laying out once. *)
Theorem updateGeometry_idempotent (a : Arrow qreal) :
  updateGeometry (updateGeometry a) = updateGeometry a.
Proof.
  destruct (length (mkQLineF (_p1 a) (_p2 a)) <? lit_0_0001) eqn:G.
  - assert (E : updateGeometry a = a)
      by (unfold updateGeometry; cbv zeta; now rewrite G).
    now rewrite !E.
  - remember (updateGeometry a) as u eqn:Hu.
    unfold updateGeometry in Hu. cbv zeta in Hu. rewrite G in Hu.
    arrow_cases a; cbn in Hu; subst u; unfold updateGeometry; cbn;
      rewrite G; reflexivity.
Qed.

(** X4. Styling the caps twice is styling them once: a second
    [updateCapStyle] neither creates nor destroys an item and rewrites the
    same visibility, border and polygon. *)
Theorem updateCapStyle_idempotent (a : Arrow qreal) :
  updateCapStyle (updateCapStyle a) = updateCapStyle a.
Proof.
  remember (updateCapStyle a) as u eqn:Hu.
  unfold updateCapStyle in Hu.
  destruct a as [c p1 p2 s1 s2 z1 z2 l i1 i2 e].
  destruct s1, s2, i1, i2; cbn in Hu; subst u; reflexivity.
Qed.

Lemma CapStyle_eqb_refl (s : CapStyle) : CapStyle_eqb s s = true.
Proof. now destruct s. Qed.

Lemma CapStyle_eqb_eq (s t : CapStyle) : CapStyle_eqb s t = true <-> s = t.
Proof. destruct s, t; cbn; split; congruence. Qed.

Lemma relayout_styles (a : Arrow qreal) :
  _p1CapStyle (updateGeometry (updateCapStyle a)) = _p1CapStyle a /\
  _p2CapStyle (updateGeometry (updateCapStyle a)) = _p2CapStyle a.
Proof.
  pose proof (updateGeometry_frame (updateCapStyle a)) as G.
  pose proof (updateCapStyle_frame a) as C. cbv zeta in G, C.
  destruct G as (_ & _ & G1 & G2 & _).
  destruct C as (_ & _ & C1 & C2 & _).
  now rewrite G1, G2, C1, C2.
Qed.

(** X5. [setP1CapStyle] and [setP2CapStyle] do nothing, and emit nothing,
    when given the current style; otherwise the style is stored.  Either
    way a second call with the same style changes nothing more. *)
Theorem setCapStyle_idempotent (a : Arrow qreal) (s : CapStyle) :
  (s = _p1CapStyle a -> setP1CapStyle s a = a) /\
  (s = _p2CapStyle a -> setP2CapStyle s a = a) /\
  _p1CapStyle (setP1CapStyle s a) = s /\
  _p2CapStyle (setP2CapStyle s a) = s /\
  setP1CapStyle s (setP1CapStyle s a) = setP1CapStyle s a /\
  setP2CapStyle s (setP2CapStyle s a) = setP2CapStyle s a.
Proof.
  assert (N1 : forall b : Arrow qreal, setP1CapStyle (_p1CapStyle b) b = b).
  { intro b. unfold setP1CapStyle. now rewrite CapStyle_eqb_refl. }
  assert (N2 : forall b : Arrow qreal, setP2CapStyle (_p2CapStyle b) b = b).
  { intro b. unfold setP2CapStyle. now rewrite CapStyle_eqb_refl. }
  assert (S1 : _p1CapStyle (setP1CapStyle s a) = s).
  { unfold setP1CapStyle. destruct (CapStyle_eqb s (_p1CapStyle a)) eqn:E.
    - symmetry. now apply CapStyle_eqb_eq.
    - cbn [negb]. cbv zeta.
      now rewrite (proj1 (relayout_styles _)). }
  assert (S2 : _p2CapStyle (setP2CapStyle s a) = s).
  { unfold setP2CapStyle. destruct (CapStyle_eqb s (_p2CapStyle a)) eqn:E.
    - symmetry. now apply CapStyle_eqb_eq.
    - cbn [negb]. cbv zeta.
      now rewrite (proj2 (relayout_styles _)). }
  repeat split.
  - intros ->. apply N1.
  - intros ->. apply N2.
  - exact S1.
  - exact S2.
  - rewrite <- S1 at 1. apply N1.
  - rewrite <- S2 at 1. apply N2.
Qed.

(** X6. Switching the P1 cap on an arrow whose endpoints are not closer
    than 0.0001.  To [ArrowCap]: the cap item (created when missing) is
    visible, carries the triangle of the P1 cap size, sits at [p1] rotated
    like the line, and the internal line starts at the truncated point.  To
    [NoCap]: the item is gone and the internal line starts at [p1] again.
    To [CircleCap]: the item is hidden and the start of the internal line
    stays where it was, truncated or not. *)
Theorem setP1CapStyle_switches (a : Arrow qreal) (s : CapStyle) :
  let line := mkQLineF (_p1 a) (_p2 a) in
  s <> _p1CapStyle a ->
  (length line <? lit_0_0001) = false ->
  Line_p1 (_line (setP1CapStyle s a))
  = match s with
    | NoCap => _p1 a
    | ArrowCap => pointAt line (_p1CapSize a * #2 / length line)
    | CircleCap => Line_p1 (_line a)
    end /\
  _p1Arrow (setP1CapStyle s a)
  = match s with
    | NoCap => None
    | ArrowCap =>
        Some (placedAt (_p1 a) (capRotation line)
                (dressed (capTriangleP1 (_p1CapSize a))
                   match _p1Arrow a with
                   | Some i => i
                   | None => @new_ConvexPolygon qreal Q
                   end))
    | CircleCap => option_map (setVisible false) (_p1Arrow a)
    end.
Proof.
  cbv zeta. intros Hs G.
  unfold setP1CapStyle.
  destruct (CapStyle_eqb s (_p1CapStyle a)) eqn:E;
    [now apply CapStyle_eqb_eq in E|].
  cbn [negb]. cbv zeta.
  set (b := emit p1CapStyleChanged (with_p1CapStyle s a)).
  pose proof (updateCapStyle_frame b) as F. cbv zeta in F.
  destruct F as (F1 & F2 & F3 & _ & F5 & _ & _ & _ & FL).
  destruct (updateCapStyle_ends b) as [E1 _].
  set (u := updateCapStyle b) in *.
  assert (Gu : (length (mkQLineF (_p1 u) (_p2 u)) <? lit_0_0001) = false)
    by (rewrite F1, F2; exact G).
  destruct (updateGeometry_p1_end u Gu) as [-> ->].
  rewrite F1, F2, F3, F5, FL, E1.
  change (_p1CapStyle b) with s. change (_p1Arrow b) with (_p1Arrow a).
  change (_p1CapSize b) with (_p1CapSize a). change (_p1 b) with (_p1 a).
  change (_p2 b) with (_p2 a). change (_line b) with (_line a).
  destruct s, (_p1Arrow a); split; reflexivity.
Qed.

(** X7. The same for the P2 cap: the truncated point is the one at
    parameter [1 - p2CapSize * 2 / length] and the triangle is the P2 one. *)
Theorem setP2CapStyle_switches (a : Arrow qreal) (s : CapStyle) :
  let line := mkQLineF (_p1 a) (_p2 a) in
  s <> _p2CapStyle a ->
  (length line <? lit_0_0001) = false ->
  Line_p2 (_line (setP2CapStyle s a))
  = match s with
    | NoCap => _p2 a
    | ArrowCap =>
        pointAt line (#1 - (_p2CapSize a * #2 / length line))
    | CircleCap => Line_p2 (_line a)
    end /\
  _p2Arrow (setP2CapStyle s a)
  = match s with
    | NoCap => None
    | ArrowCap =>
        Some (placedAt (_p2 a) (capRotation line)
                (dressed (capTriangleP2 (_p2CapSize a))
                   match _p2Arrow a with
                   | Some i => i
                   | None => @new_ConvexPolygon qreal Q
                   end))
    | CircleCap => option_map (setVisible false) (_p2Arrow a)
    end.
Proof.
  cbv zeta. intros Hs G.
  unfold setP2CapStyle.
  destruct (CapStyle_eqb s (_p2CapStyle a)) eqn:E;
    [now apply CapStyle_eqb_eq in E|].
  cbn [negb]. cbv zeta.
  set (b := emit p2CapStyleChanged (with_p2CapStyle s a)).
  pose proof (updateCapStyle_frame b) as F. cbv zeta in F.
  destruct F as (F1 & F2 & _ & F4 & _ & F6 & _ & _ & FL).
  destruct (updateCapStyle_ends b) as [_ E2].
  set (u := updateCapStyle b) in *.
  assert (Gu : (length (mkQLineF (_p1 u) (_p2 u)) <? lit_0_0001) = false)
    by (rewrite F1, F2; exact G).
  destruct (updateGeometry_p2_end u Gu) as [-> ->].
  rewrite F1, F2, F4, F6, FL, E2.
  change (_p2CapStyle b) with s. change (_p2Arrow b) with (_p2Arrow a).
  change (_p2CapSize b) with (_p2CapSize a). change (_p1 b) with (_p1 a).
  change (_p2 b) with (_p2 a). change (_line b) with (_line a).
  destruct s, (_p2Arrow a); split; reflexivity.
Qed.

(** X8. Colouring and laying out commute: [setColor] before or after
    [updateGeometry] gives the same arrow. *)
Theorem setColor_commutes_with_layout (c : QColor) (a : Arrow qreal) :
  updateGeometry (setColor c a) = setColor c (updateGeometry a).
Proof.
  assert (C : _color (updateGeometry a) = _color a).
  { pose proof (updateGeometry_frame a) as F. cbv zeta in F. tauto. }
  unfold setColor at 2. rewrite C. unfold setColor.
  destruct (negb (QColor_eqb c (_color a))); [|reflexivity].
  destruct a as [c0 p1 p2 s1 s2 z1 z2 l i1 i2 e].
  unfold updateGeometry, getP1CapStyle, getP2CapStyle.
  cbn [_p1 _p2 _p1Arrow _p2Arrow with_color with_line with_p1Arrow
       with_p2Arrow emit].
  destruct i1, i2;
    cbn [_p1 _p2 _p1Arrow _p2Arrow with_color with_line with_p1Arrow
         with_p2Arrow emit];
    destruct (length (mkQLineF p1 p2) <? lit_0_0001); try reflexivity;
    destruct s1, s2; reflexivity.
Qed.

End Composed.

(** ** The setters, call by call *)

Section Calls.

Context {qreal : Type} {Q : QReal qreal}.
Local Open Scope qreal_scope.

Lemma relayout_emitted (a : Arrow qreal) :
  emitted (updateGeometry (updateCapStyle a)) = emitted a.
Proof.
  pose proof (updateGeometry_frame (updateCapStyle a)) as G.
  pose proof (updateCapStyle_frame a) as C. cbv zeta in G, C.
  destruct G as (_ & _ & _ & _ & _ & _ & _ & GE & _).
  destruct C as (_ & _ & _ & _ & _ & _ & _ & CE & _).
  now rewrite GE, CE.
Qed.

(** What one call of [setLineWidth] leaves behind. *)
Lemma setLineWidth_steps (w : qreal) (a : Arrow qreal) :
  let a' := setLineWidth w a in
  getLineWidth a' = w /\
  _p1CapSize a'
  = (if raises w (_p1CapSize a) then w / #2 else _p1CapSize a) /\
  _p2CapSize a'
  = (if raises w (_p2CapSize a) then w / #2 else _p2CapSize a) /\
  emitted a'
  = emitted a
    ++ (if raises w (_p2CapSize a) then [p2CapSizeChanged] else [])
    ++ (if raises w (_p1CapSize a) then [p1CapSizeChanged] else [])
    ++ [lineWidthChanged].
Proof.
  cbv zeta. unfold setLineWidth, getP1CapSize, getP2CapSize, raises.
  set (a0 := with_line (Line_setLineWidth w (_line a)) a).
  set (near := fun s : qreal =>
                 negb (qFuzzyCompare (#1 + w / #2) (#1 + s))).
  assert (E2 : forall b : Arrow qreal, getLineWidth b = w ->
             let b' := setP2CapSize (w / #2) b in
             getLineWidth b' = w /\ _p1CapSize b' = _p1CapSize b /\
             _p2CapSize b'
             = (if near (_p2CapSize b) then w / #2 else _p2CapSize b) /\
             emitted b'
             = emitted b ++
               (if near (_p2CapSize b) then [p2CapSizeChanged] else [])).
  { intros b Wb. cbv zeta. unfold setP2CapSize, near.
    rewrite Wb, qMax_same.
    destruct (negb _).
    - destruct (relayout_frame
                  (emit p2CapSizeChanged (with_p2CapSize (w / #2) b)))
        as (R1 & R2 & RW).
      rewrite R1, R2, RW, relayout_emitted. cbn. auto.
    - rewrite app_nil_r. auto. }
  assert (E1 : forall b : Arrow qreal, getLineWidth b = w ->
             let b' := setP1CapSize (w / #2) b in
             getLineWidth b' = w /\ _p2CapSize b' = _p2CapSize b /\
             _p1CapSize b'
             = (if near (_p1CapSize b) then w / #2 else _p1CapSize b) /\
             emitted b'
             = emitted b ++
               (if near (_p1CapSize b) then [p1CapSizeChanged] else [])).
  { intros b Wb. cbv zeta. unfold setP1CapSize, near.
    rewrite Wb, qMax_same.
    destruct (negb _).
    - destruct (relayout_frame
                  (emit p1CapSizeChanged (with_p1CapSize (w / #2) b)))
        as (R1 & R2 & RW).
      rewrite R1, R2, RW, relayout_emitted. cbn. auto.
    - rewrite app_nil_r. auto. }
  change (_p2CapSize a0) with (_p2CapSize a).
  set (a1 := if _p2CapSize a <? w / #2
             then setP2CapSize (w / #2) a0 else a0).
  assert (A1 : getLineWidth a1 = w /\ _p1CapSize a1 = _p1CapSize a /\
               _p2CapSize a1
               = (if (_p2CapSize a <? w / #2) && near (_p2CapSize a)
                  then w / #2 else _p2CapSize a) /\
               emitted a1
               = emitted a ++
                 (if (_p2CapSize a <? w / #2) && near (_p2CapSize a)
                  then [p2CapSizeChanged] else [])).
  { subst a1. destruct (_p2CapSize a <? w / #2); cbn [andb].
    - exact (E2 a0 eq_refl).
    - rewrite app_nil_r. auto. }
  destruct A1 as (W1 & P1 & P2 & EM1).
  rewrite P1.
  set (a2 := if _p1CapSize a <? w / #2
             then setP1CapSize (w / #2) a1 else a1).
  assert (A2 : getLineWidth a2 = w /\ _p2CapSize a2 = _p2CapSize a1 /\
               _p1CapSize a2
               = (if (_p1CapSize a <? w / #2) && near (_p1CapSize a)
                  then w / #2 else _p1CapSize a) /\
               emitted a2
               = emitted a1 ++
                 (if (_p1CapSize a <? w / #2) && near (_p1CapSize a)
                  then [p1CapSizeChanged] else [])).
  { subst a2. destruct (_p1CapSize a <? w / #2); cbn [andb].
    - destruct (E1 a1 W1) as (X1 & X2 & X3 & X4).
      rewrite P1 in X3, X4. auto.
    - rewrite app_nil_r. auto. }
  destruct A2 as (W2 & Q2 & Q1 & EM2).
  change (getLineWidth (emit lineWidthChanged a2)) with (getLineWidth a2).
  cbn [emit _p1CapSize _p2CapSize emitted].
  rewrite W2, Q1, Q2, P2, EM2, EM1, <- !app_assoc. auto.
Qed.

(** X9. [setLineWidth] always stores the width and always ends with
    [lineWidthChanged]; before it come [p2CapSizeChanged] and then
    [p1CapSizeChanged], each exactly when that cap size lay below half the
    new width and was not within the tolerance of it.  Nothing else is
    signalled. *)
Theorem setLineWidth_signal_order (w : qreal) (a : Arrow qreal) :
  getLineWidth (setLineWidth w a) = w /\
  emitted (setLineWidth w a)
  = emitted a
    ++ (if raises w (_p2CapSize a) then [p2CapSizeChanged] else [])
    ++ (if raises w (_p1CapSize a) then [p1CapSizeChanged] else [])
    ++ [lineWidthChanged].
Proof.
  destruct (setLineWidth_steps w a) as (W & _ & _ & E). auto.
Qed.

(** X10. After [setLineWidth] each cap size is either what it was or half
    the new width, and in an arithmetic with the comparison laws it is
    never below what it was. *)
Theorem setLineWidth_never_lowers_caps {QO : QRealOrder Q}
    (w : qreal) (a : Arrow qreal) :
  _p1CapSize (setLineWidth w a)
  = (if raises w (_p1CapSize a) then w / #2 else _p1CapSize a) /\
  _p2CapSize (setLineWidth w a)
  = (if raises w (_p2CapSize a) then w / #2 else _p2CapSize a) /\
  (_p1CapSize (setLineWidth w a) <? _p1CapSize a) = false /\
  (_p2CapSize (setLineWidth w a) <? _p2CapSize a) = false.
Proof.
  destruct (setLineWidth_steps w a) as (_ & E1 & E2 & _).
  split; [exact E1|]. split; [exact E2|].
  rewrite E1, E2. unfold raises.
  split.
  - destruct (_p1CapSize a <? w / #2) eqn:B; cbn [andb].
    + destruct (negb _); [now apply qltb_asym | apply qltb_irrefl].
    + apply qltb_irrefl.
  - destruct (_p2CapSize a <? w / #2) eqn:B; cbn [andb].
    + destruct (negb _); [now apply qltb_asym | apply qltb_irrefl].
    + apply qltb_irrefl.
Qed.

(** X11. [updateGeometry] writes the two ends of the internal line and the
    position, transform origin and rotation of the cap items, and nothing
    else: the arrow's own members and signals, the colour and width of the
    line, and the visibility, border, colour and polygon of the cap items
    are as before, and no cap item appears or disappears. *)
Theorem updateGeometry_writes_only_layout (a : Arrow qreal) :
  let look (i : ConvexPolygon qreal) :=
    (item_visible i, item_borderWidth i, item_color i, item_polygon i) in
  let a' := updateGeometry a in
  (_color a', _p1 a', _p2 a', _p1CapStyle a', _p2CapStyle a',
   _p1CapSize a', _p2CapSize a', emitted a')
  = (_color a, _p1 a, _p2 a, _p1CapStyle a, _p2CapStyle a,
     _p1CapSize a, _p2CapSize a, emitted a) /\
  Line_color (_line a') = Line_color (_line a) /\
  Line_lineWidth (_line a') = Line_lineWidth (_line a) /\
  option_map look (_p1Arrow a') = option_map look (_p1Arrow a) /\
  option_map look (_p2Arrow a') = option_map look (_p2Arrow a).
Proof.
  cbv zeta. unfold updateGeometry.
  destruct (length _ <? lit_0_0001); [repeat split|].
  arrow_cases a; repeat split.
Qed.

(** X12. [updateCapStyle] leaves the arrow's members, its signals and the
    internal line alone, and on a cap item that survives it leaves the
    position, transform origin, rotation and colour alone; an item it
    creates has those of a fresh polygon, so it is placed only by the
    next [updateGeometry] and carries no colour of the arrow. *)
Theorem updateCapStyle_writes_only_caps (a : Arrow qreal) :
  let place (i : ConvexPolygon qreal) :=
    (item_x i, item_y i, item_transformOrigin i, item_rotation i,
     item_color i) in
  let a' := updateCapStyle a in
  (_color a', _p1 a', _p2 a', _p1CapStyle a', _p2CapStyle a',
   _p1CapSize a', _p2CapSize a', emitted a', _line a')
  = (_color a, _p1 a, _p2 a, _p1CapStyle a, _p2CapStyle a,
     _p1CapSize a, _p2CapSize a, emitted a, _line a) /\
  (forall i, _p1Arrow a = Some i -> _p1CapStyle a <> NoCap ->
     option_map place (_p1Arrow a') = Some (place i)) /\
  (forall i, _p2Arrow a = Some i -> _p2CapStyle a <> NoCap ->
     option_map place (_p2Arrow a') = Some (place i)) /\
  (_p1Arrow a = None -> _p1CapStyle a = ArrowCap ->
     option_map place (_p1Arrow a')
     = Some (place (@new_ConvexPolygon qreal Q))) /\
  (_p2Arrow a = None -> _p2CapStyle a = ArrowCap ->
     option_map place (_p2Arrow a')
     = Some (place (@new_ConvexPolygon qreal Q))).
Proof.
  cbv zeta.
  pose proof (updateCapStyle_frame a) as F. cbv zeta in F.
  destruct F as (-> & -> & -> & -> & -> & -> & -> & -> & ->).
  destruct (updateCapStyle_ends a) as [-> ->].
  split; [reflexivity|].
  split; [|split; [|split]].
  - intros i -> S. now destruct (_p1CapStyle a).
  - intros i -> S. now destruct (_p2CapStyle a).
  - intros -> ->. reflexivity.
  - intros -> ->. reflexivity.
Qed.

(** X13. [setP1] and [setP2] always store the point and signal once.  When
    the new endpoints are closer than 0.0001 the rendering keeps the
    geometry of the earlier endpoints; otherwise an end without cap puts
    the internal line's end on the new point. *)
Theorem setEndpoint_rendering (a : Arrow qreal) (p : QPointF qreal) :
  (_p1 (setP1 p a) = p /\ emitted (setP1 p a) = emitted a ++ [p1Changed]) /\
  (_p2 (setP2 p a) = p /\ emitted (setP2 p a) = emitted a ++ [p2Changed]) /\
  ((length (mkQLineF p (_p2 a)) <? lit_0_0001) = true ->
     geometryOutputs (setP1 p a) = geometryOutputs a) /\
  ((length (mkQLineF (_p1 a) p) <? lit_0_0001) = true ->
     geometryOutputs (setP2 p a) = geometryOutputs a) /\
  ((length (mkQLineF p (_p2 a)) <? lit_0_0001) = false ->
     _p1CapStyle a = NoCap -> Line_p1 (_line (setP1 p a)) = p) /\
  ((length (mkQLineF (_p1 a) p) <? lit_0_0001) = false ->
     _p2CapStyle a = NoCap -> Line_p2 (_line (setP2 p a)) = p).
Proof.
  destruct a as [c p1 p2 s1 s2 z1 z2 l i1 i2 e].
  unfold setP1, setP2, updateGeometry, geometryOutputs, getP1CapStyle,
    getP2CapStyle.
  cbn [_p1 _p2 with_p1 with_p2 _p1CapStyle _p2CapStyle]. cbv zeta.
  split; [|split; [|split; [|split; [|split]]]].
  - destruct (length _ <? lit_0_0001); [split; reflexivity|].
    destruct s1, s2, i1, i2; split; reflexivity.
  - destruct (length _ <? lit_0_0001); [split; reflexivity|].
    destruct s1, s2, i1, i2; split; reflexivity.
  - intro G. rewrite G. reflexivity.
  - intro G. rewrite G. reflexivity.
  - intros G S. rewrite G. subst s1. destruct s2, i2; reflexivity.
  - intros G S. rewrite G. subst s2. destruct s1, i1; reflexivity.
Qed.

(** X14. Setting a cap size twice to the same value is setting it once,
    provided the fuzzy comparison finds the stored value equal to itself
    (which it does not for a value that is not a number). *)
Theorem setCapSize_twice (capSize : qreal) (a : Arrow qreal) :
  let clamped := qMax (getLineWidth a / #2) capSize in
  qFuzzyCompare (#1 + clamped) (#1 + clamped) = true ->
  setP1CapSize capSize (setP1CapSize capSize a) = setP1CapSize capSize a /\
  setP2CapSize capSize (setP2CapSize capSize a) = setP2CapSize capSize a.
Proof.
  intros clamped R. split.
  - destruct (setP1CapSize_effect capSize a) as (_ & EW & [[_ E] | [_ E]]).
    + unfold setP1CapSize at 1. rewrite EW, E. fold clamped. now rewrite R.
    + now rewrite E, E.
  - destruct (setP2CapSize_effect capSize a) as (_ & EW & [[_ E] | [_ E]]).
    + unfold setP2CapSize at 1. rewrite EW, E. fold clamped. now rewrite R.
    + now rewrite E, E.
Qed.

Lemma runOp_keeps_line_colour (op : ArrowOp qreal) (a : Arrow qreal) :
  lineColourInSync a -> lineColourInSync (runOp op a).
Proof.
  unfold lineColourInSync. intro H.
  assert (U : forall b : Arrow qreal,
            Line_color (_line (updateGeometry b)) = Line_color (_line b) /\
            _color (updateGeometry b) = _color b).
  { intro b. pose proof (updateGeometry_frame b) as G. cbv zeta in G.
    destruct G as (_ & _ & _ & _ & _ & _ & GC & _ & _ & GL). auto. }
  assert (C : forall b : Arrow qreal,
            Line_color (_line (updateCapStyle b)) = Line_color (_line b) /\
            _color (updateCapStyle b) = _color b).
  { intro b. pose proof (updateCapStyle_frame b) as G. cbv zeta in G.
    destruct G as (_ & _ & _ & _ & _ & _ & GC & _ & GL).
    now rewrite GL, GC. }
  assert (R : forall b : Arrow qreal,
            Line_color (_line b) = _color b ->
            Line_color (_line (updateGeometry (updateCapStyle b)))
            = _color (updateGeometry (updateCapStyle b))).
  { intros b Hb. destruct (U (updateCapStyle b)) as [-> ->].
    destruct (C b) as [-> ->]. exact Hb. }
  assert (S1 : forall s b, Line_color (_line b) = _color b ->
            Line_color (_line (setP1CapSize s b))
            = _color (setP1CapSize s b)).
  { intros s b Hb. unfold setP1CapSize. destruct (negb _); [|exact Hb].
    now apply R. }
  assert (S2 : forall s b, Line_color (_line b) = _color b ->
            Line_color (_line (setP2CapSize s b))
            = _color (setP2CapSize s b)).
  { intros s b Hb. unfold setP2CapSize. destruct (negb _); [|exact Hb].
    now apply R. }
  destruct op; cbn [runOp].
  - unfold setColor. destruct (negb _); [|exact H].
    item_cases a; reflexivity.
  - unfold setP1. cbn [emit _line _color].
    destruct (U (with_p1 p1 a)) as [-> ->]. exact H.
  - unfold setP2. cbn [emit _line _color].
    destruct (U (with_p2 p2 a)) as [-> ->]. exact H.
  - unfold setLineWidth. cbv zeta. cbn [emit _line _color].
    set (a0 := with_line _ a).
    assert (H0 : Line_color (_line a0) = _color a0) by exact H.
    destruct (getP2CapSize a0 <? _).
    + destruct (getP1CapSize _ <? _); [apply S1|]; now apply S2.
    + destruct (getP1CapSize _ <? _); [now apply S1 | exact H0].
  - unfold setP1CapStyle. destruct (negb _); [|exact H]. now apply R.
  - unfold setP2CapStyle. destruct (negb _); [|exact H]. now apply R.
  - now apply S1.
  - now apply S2.
  - destruct (C a) as [-> ->]. exact H.
  - destruct (U a) as [-> ->]. exact H.
Qed.

(** X15. The internal line is painted in the arrow's colour from the first
    effective [setColor] on: a [setColor] with a new colour makes the two
    agree, whatever they were, and no sequence of calls to the arrow's
    methods makes them differ again. *)
Theorem line_colour_follows_arrow (a : Arrow qreal) :
  (forall c, c <> _color a -> lineColourInSync (setColor c a)) /\
  (lineColourInSync a -> forall ops, lineColourInSync (runOps ops a)).
Proof.
  split.
  - intros c Hc. unfold lineColourInSync, setColor.
    rewrite (QColor_eqb_neq Hc). item_cases a; reflexivity.
  - intros H ops. revert a H. unfold runOps.
    induction ops as [|op ops IH]; intros a H; cbn [fold_left].
    + exact H.
    + apply IH. now apply runOp_keeps_line_colour.
Qed.

End Calls.

(** ** The inline setters of qan::Node in sequence *)

Section NodeCalls.

Context {qreal GenNode : Type}.
Variable setSerializable setResizable : bool -> GenNode -> GenNode.

Lemma runNodeOp_effect (op : NodeOp qreal) (n : Node qreal GenNode) :
  List.length (node_emitted (runNodeOp setSerializable setResizable op n))
  = S (List.length (node_emitted n)) /\
  gtpo_base (runNodeOp setSerializable setResizable op n)
  = forwarded setSerializable setResizable op (gtpo_base n) /\
  (ItemAcceptsDrops n = _acceptDrops n ->
   ItemAcceptsDrops (runNodeOp setSerializable setResizable op n)
   = _acceptDrops (runNodeOp setSerializable setResizable op n)).
Proof.
  destruct op; cbn; rewrite List.length_app; cbn; repeat split; auto; lia.
Qed.

(** X16. The nine setters that qanNode.h defines inline signal
    unconditionally, also when the value does not change: after any
    sequence of calls the trace has grown by exactly the number of calls.
    The graph node beneath is written by [setSerializableObs] and
    [setResizableObs] alone, which forward to its own setters: after the
    sequence it is what those forwarded calls, in their order, make of it,
    and it is untouched when the sequence holds neither of the two. *)
Theorem node_setters_in_sequence (ops : list (NodeOp qreal))
    (n : Node qreal GenNode) :
  List.length (node_emitted (runNodeOps setSerializable setResizable ops n))
  = (List.length (node_emitted n) + List.length ops)%nat /\
  gtpo_base (runNodeOps setSerializable setResizable ops n)
  = fold_left
      (fun base op => forwarded setSerializable setResizable op base)
      ops (gtpo_base n) /\
  (forallb assignsMember ops = true ->
   gtpo_base (runNodeOps setSerializable setResizable ops n) = gtpo_base n).
Proof.
  assert (A : forall (m : Node qreal GenNode),
            List.length
              (node_emitted (runNodeOps setSerializable setResizable ops m))
            = (List.length (node_emitted m) + List.length ops)%nat /\
            gtpo_base (runNodeOps setSerializable setResizable ops m)
            = fold_left
                (fun base op =>
                   forwarded setSerializable setResizable op base)
                ops (gtpo_base m)).
  { unfold runNodeOps.
    induction ops as [|op ops' IH]; intro m; cbn [fold_left List.length].
    - split; [lia | reflexivity].
    - destruct (IH (runNodeOp setSerializable setResizable op m)) as [L B].
      destruct (runNodeOp_effect op m) as (L1 & B1 & _).
      rewrite L, B, L1, B1. split; [lia | reflexivity]. }
  destruct (A n) as [L B].
  split; [exact L|]. split; [exact B|].
  rewrite B. clear. generalize (gtpo_base n).
  induction ops as [|op ops' IH]; intros base H; cbn [fold_left].
  - reflexivity.
  - cbn [forallb] in H. apply andb_prop in H. destruct H as [H1 H2].
    rewrite (IH _ H2). now destruct op.
Qed.

(** X17. [setAcceptDrops] sets the item flag [ItemAcceptsDrops] together
    with the member, and none of the other eight inline setters touches
    either: once flag and member agree they agree after any sequence of
    calls. *)
Theorem acceptDrops_flag_in_sync (ops : list (NodeOp qreal))
    (n : Node qreal GenNode) :
  (forall b, ItemAcceptsDrops (setAcceptDrops b n) = b /\
             getAcceptDrops (setAcceptDrops b n) = b) /\
  (ItemAcceptsDrops n = _acceptDrops n ->
   ItemAcceptsDrops (runNodeOps setSerializable setResizable ops n)
   = _acceptDrops (runNodeOps setSerializable setResizable ops n)).
Proof.
  split; [intro b; split; reflexivity|].
  revert n. unfold runNodeOps.
  induction ops as [|op ops IH]; intros n H; cbn [fold_left].
  - exact H.
  - apply IH. now apply runNodeOp_effect.
Qed.

End NodeCalls.

(** ** Layout in exact arithmetic *)

Module ExactLayout.
Import Exact ExactLaws ExactSamples ExactRuns.

Local Open Scope R_scope.

Lemma scaled_length_abs (u v t : R) :
  sqrt (u * t * (u * t) + v * t * (v * t)) = Rabs t * sqrt (u * u + v * v).
Proof.
  replace (u * t * (u * t) + v * t * (v * t))
    with (Rsqr t * (u * u + v * v)) by (unfold Rsqr; ring).
  rewrite sqrt_mult_alt by apply Rle_0_sqr.
  now rewrite sqrt_Rsqr_abs.
Qed.

(** X18. Over the reals, on endpoints at least 0.0001 apart and with an
    arrow head at both ends, the internal line that [updateGeometry]
    hands to the renderer has length
    [| length - 2 * p1CapSize - 2 * p2CapSize |]: each head takes twice its
    size off the line, and when the heads together need more than the
    length the line does not vanish but is drawn reversed. *)
Theorem rendered_line_length (a : Arrow R) :
  let len := length (mkQLineF (_p1 a) (_p2 a)) in
  1 / 10000 <= len ->
  _p1CapStyle a = ArrowCap -> _p2CapStyle a = ArrowCap ->
  _p1Arrow a <> None -> _p2Arrow a <> None ->
  let a' := updateGeometry a in
  length (mkQLineF (Line_p1 (_line a')) (Line_p2 (_line a')))
  = Rabs (len - 2 * _p1CapSize a - 2 * _p2CapSize a).
Proof.
  intros len Hlen S1 S2 I1 I2. cbv zeta.
  assert (G : Rltb len (1 / 10000) = false) by (apply Rltb_false; lra).
  subst len. revert G Hlen.
  destruct a as [c p1 p2 s1 s2 z1 z2 l i1 i2 e].
  cbn [_p1 _p2 _p1CapStyle _p2CapStyle _p1CapSize _p2CapSize _p1Arrow
       _p2Arrow] in *.
  subst s1 s2.
  destruct i1 as [i1|]; [|congruence]. destruct i2 as [i2|]; [|congruence].
  unfold updateGeometry, getP1CapStyle, getP2CapStyle. cbv zeta.
  cbn [_p1 _p2 _p1CapStyle _p2CapStyle qltb lit_0_0001 reals].
  intros G Hlen. rewrite G.
  cbn [_p1 _p2 _p1CapStyle _p2CapStyle _p1CapSize _p2CapSize _p1Arrow
       _p2Arrow _line with_line with_p1Arrow with_p2Arrow Line_setP1
       Line_setP2 Line_p1 Line_p2].
  revert Hlen G. unfold length, pointAt.
  cbn [qadd qsub qmul qdiv qsqrt lit reals pt1 pt2 x y].
  set (L := sqrt _). intros Hlen _.
  set (t := 1 - z2 * 2 / L - z1 * 2 / L).
  replace (x p1 + (x p2 - x p1) * (1 - z2 * 2 / L)
           - (x p1 + (x p2 - x p1) * (z1 * 2 / L)))
    with ((x p2 - x p1) * t) by (unfold t; ring).
  replace (y p1 + (y p2 - y p1) * (1 - z2 * 2 / L)
           - (y p1 + (y p2 - y p1) * (z1 * 2 / L)))
    with ((y p2 - y p1) * t) by (unfold t; ring).
  rewrite scaled_length_abs. fold L.
  replace (L - 2 * z1 - 2 * z2) with (t * L) by (unfold t; field; lra).
  rewrite Rabs_mult, (Rabs_pos_eq L) by lra. reflexivity.
Qed.

(** X19. Over the reals, the rotation that [updateGeometry] gives a cap
    item is an angle in degrees between 0 and 360. *)
Theorem rotation_in_degrees_range (a : Arrow R) (i : ConvexPolygon R) :
  1 / 10000 <= length (mkQLineF (_p1 a) (_p2 a)) ->
  (_p1CapStyle a = ArrowCap -> _p1Arrow (updateGeometry a) = Some i ->
     0 <= item_rotation i <= 360) /\
  (_p2CapStyle a = ArrowCap -> _p2Arrow (updateGeometry a) = Some i ->
     0 <= item_rotation i <= 360).
Proof.
  intro Hlen.
  assert (G : Rltb (length (mkQLineF (_p1 a) (_p2 a))) (1 / 10000) = false)
    by (apply Rltb_false; lra).
  assert (B : forall u v : R,
            0 <= (if Rleb v 0 then 2 * PI - acos u else acos u) * 180 / PI
              <= 360).
  { intros u v. pose proof (acos_bound u) as [A1 A2].
    pose proof PI_RGT_0 as P.
    assert (E : forall th, 0 <= th <= 2 * PI -> 0 <= th * 180 / PI <= 360).
    { intros th [T1 T2]. split.
      - apply Rmult_le_pos; [lra|]. left. now apply Rinv_0_lt_compat.
      - apply (Rmult_le_reg_r PI); [lra|]. field_simplify; lra. }
    apply E. destruct (Rleb v 0); lra. }
  revert G.
  destruct a as [c p1 p2 s1 s2 z1 z2 l i1 i2 e].
  unfold updateGeometry, getP1CapStyle, getP2CapStyle. cbv zeta.
  cbn [_p1 _p2 _p1CapStyle _p2CapStyle qltb lit_0_0001 reals].
  intro G. rewrite G.
  split; intros S E; cbn [_p1CapStyle _p2CapStyle] in S; subst;
    [destruct s2 | destruct s1]; destruct i1, i2; cbn in E;
    try discriminate; injection E as <-; cbn; apply B.
Qed.

Lemma length_345 : length (mkQLineF (ptR 0 0) (ptR 3 4)) = 5.
Proof.
  unfold length. cbn [qadd qsub qmul qsqrt reals dx dy pt1 pt2 x y ptR].
  replace ((3 - 0) * (3 - 0) + (4 - 0) * (4 - 0)) with (5 * 5) by ring.
  apply sqrt_square. lra.
Qed.

(** From (0,0) to (3,4) with heads of size 1, a line of length
    [5 - 2 - 2] is left. *)
Lemma rendered_line_length_witness :
  1 / 10000 <= length (mkQLineF (ptR 0 0) (ptR 3 4)) /\
  length (mkQLineF (Line_p1 (_line (updateGeometry arrowR_caps)))
                   (Line_p2 (_line (updateGeometry arrowR_caps))))
  = 1.
Proof.
  assert (H : 1 / 10000 <= length (mkQLineF (ptR 0 0) (ptR 3 4)))
    by (rewrite length_345; lra).
  split; [exact H|].
  rewrite (rendered_line_length arrowR_caps H eq_refl eq_refl
             ltac:(discriminate) ltac:(discriminate)).
  cbn [_p1 _p2 _p1CapSize _p2CapSize arrowR_caps].
  rewrite length_345.
  replace (5 - 2 * 1 - 2 * 1) with 1 by ring.
  apply Rabs_pos_eq. lra.
Defined.

Lemma rotation_in_degrees_range_witness :
  1 / 10000 <= length (mkQLineF (ptR 0 0) (ptR 3 4)) /\
  0 <= item_rotation
         (placedAt (ptR 0 0) (capRotation (mkQLineF (ptR 0 0) (ptR 3 4)))
            capR) <= 360.
Proof.
  assert (H : 1 / 10000 <= length (mkQLineF (ptR 0 0) (ptR 3 4)))
    by (rewrite length_345; lra).
  split; [exact H|].
  assert (G : Rltb (length (mkQLineF (ptR 0 0) (ptR 3 4))) (1 / 10000)
              = false) by (apply Rltb_false; lra).
  apply (proj1 (rotation_in_degrees_range arrowR_caps _ H));
    [reflexivity|].
  exact (proj2 (updateGeometry_p1_end arrowR_caps G)).
Defined.

End ExactLayout.

(** ** The cap polygons in binary64 *)

Module Binary64Caps.
Import Binary64 Binary64Laws Samples.

#[local] Set Warnings "-inexact-float".
Local Open Scope qreal_scope.

(** C3. For an end whose style is [ArrowCap], [updateCapStyle] gives the
    cap item (created when missing) a closed triangle of length [2*s] and
    half-height [s], [s] being that end's cap size.  For the P1 cap the
    vertex list is [(0,0), (2s,-s), (2s,s), (0,0)], whatever [s].  For the
    P2 cap it is [(-2s,-s), (0,0), (-2s,s), (-2s,-s)] provided [2*s] is
    finite: equal as numbers, and identical unless [s] is a zero, where
    the code computes [0 - s] and [0 + s] and a zero may differ in sign.
    With [NoCap] the cap item is destroyed; with [CircleCap] an existing cap
    item is only hidden. *)
Theorem updateCapStyle_cap_polygon_binary64 (a : Arrow float) :
  let s1 : float := _p1CapSize a in
  let s2 : float := _p2CapSize a in
  let claimed1 := [ pt 0 0; pt (2 * s1) (- s1); pt (2 * s1) s1; pt 0 0 ] in
  let claimed2 :=
    [ pt (- (2 * s2)) (- s2); pt 0 0; pt (- (2 * s2)) s2;
      pt (- (2 * s2)) (- s2) ] in
  (_p1CapStyle a = ArrowCap ->
     option_map item_polygon (_p1Arrow (updateCapStyle a)) = Some claimed1) /\
  (_p2CapStyle a = ArrowCap -> finite (2 * s2) = true ->
     exists built,
       option_map item_polygon (_p2Arrow (updateCapStyle a)) = Some built /\
       same_polygon built claimed2 = true /\
       (finite_nonzero s2 = true -> built = claimed2)) /\
  (_p1CapStyle a = NoCap -> _p1Arrow (updateCapStyle a) = None) /\
  (_p2CapStyle a = NoCap -> _p2Arrow (updateCapStyle a) = None) /\
  (_p1CapStyle a = CircleCap ->
     _p1Arrow (updateCapStyle a)
     = option_map (setVisible false) (_p1Arrow a)) /\
  (_p2CapStyle a = CircleCap ->
     _p2Arrow (updateCapStyle a)
     = option_map (setVisible false) (_p2Arrow a)).
Proof.
  intros s1 s2 claimed1 claimed2.
  destruct (updateCapStyle_polygon_as_built a) as [B1 B2].
  split; [|split].
  - intro S. rewrite (B1 S). unfold claimed1, pt.
    cbn [qmul qopp lit binary64].
    change (of_Z 0) with 0%float. change (of_Z 2) with 2%float.
    fold s1. now rewrite (binary64_mul_comm s1 2).
  - intros S F2. rewrite (B2 S).
    cbn [qadd qsub qmul qopp lit binary64].
    change (of_Z 0) with 0%float. change (of_Z 2) with 2%float.
    fold s2. rewrite (binary64_mul_comm s2 2).
    pose proof F2 as F1. rewrite (binary64_mul_comm 2 s2) in F1.
    apply finite_half in F1.
    eexists. split; [reflexivity|]. split.
    + unfold claimed2, pt, same_polygon, same_point. cbn [x y].
      rewrite (binary64_add_opp_l (2 * s2) F2).
      rewrite (binary64_sub_0_l_number s2 F1),
        (binary64_add_0_l_number s2 F1).
      rewrite (finite_eqb_refl (- (2 * s2)))
        by (now rewrite finite_opp).
      reflexivity.
    + intro N. unfold claimed2, pt.
      now rewrite (binary64_sub_0_l s2 N), (binary64_add_0_l s2 N),
        (binary64_add_opp_l (2 * s2) F2).
  - destruct (updateCapStyle_ends a) as [E1 E2].
    rewrite E1, E2.
    repeat split; intros ->; reflexivity.
Qed.

(** With cap sizes 1 the lists are those of the claim on the nose. *)
Lemma updateCapStyle_cap_polygon_binary64_witness :
  finite (2 * _p2CapSize arrow345)%float = true /\
  option_map item_polygon (_p1Arrow (updateCapStyle arrow345))
  = Some [ pt 0 0; pt 2 (-1); pt 2 1; pt 0 0 ] /\
  option_map item_polygon (_p2Arrow (updateCapStyle arrow345))
  = Some [ pt (-2) (-1); pt 0 0; pt (-2) 1; pt (-2) (-1) ].
Proof.
  split; [reflexivity|].
  destruct (updateCapStyle_cap_polygon_binary64 arrow345)
    as (H1 & H2 & _).
  split; [rewrite (H1 eq_refl); reflexivity|].
  destruct (H2 eq_refl eq_refl) as (built & E & _ & L).
  rewrite E, (L eq_refl). reflexivity.
Defined.

(** C3 as stated, for every cap size, fails in binary64: [setP2CapSize]
    stores the finite size 1e308, whose double is infinite, and the apex of
    the P2 cap, computed as [-2s + 2s], is not the origin but (NaN, 0). *)
Lemma cap_polygon_overflow_counterexample :
  _p2CapStyle arrow_huge_cap = ArrowCap /\
  _p2CapSize arrow_huge_cap = 1e308%float /\
  finite (_p2CapSize arrow_huge_cap) = true /\
  finite (2 * _p2CapSize arrow_huge_cap)%float = false /\
  option_map item_polygon (_p2Arrow (updateCapStyle arrow_huge_cap))
  = Some [ pt neg_infinity (-1e308); pt nan 0; pt neg_infinity 1e308;
           pt neg_infinity (-1e308) ] /\
  option_map item_polygon (_p2Arrow (updateCapStyle arrow_huge_cap))
  <> Some [ pt (- (2 * 1e308)) (-1e308); pt 0 0; pt (- (2 * 1e308)) 1e308;
            pt (- (2 * 1e308)) (-1e308) ]%float /\
  same_polygon
    [ pt neg_infinity (-1e308); pt nan 0; pt neg_infinity 1e308;
      pt neg_infinity (-1e308) ]
    [ pt (- (2 * 1e308)) (-1e308); pt 0 0; pt (- (2 * 1e308)) 1e308;
      pt (- (2 * 1e308)) (-1e308) ]%float = false.
Proof.
  do 5 (split; [reflexivity|]).
  split; [|reflexivity].
  intro H.
  apply (f_equal (fun o => match o with
                           | Some (_ :: p :: _) => PrimFloat.is_nan (x p)
                           | _ => false
                           end)) in H.
  vm_compute in H. discriminate.
Qed.

End Binary64Caps.

(** ** Layout in binary64 when the length is not a number *)

Module Binary64Layout.
Import Binary64 Binary64Laws Samples.

#[local] Set Warnings "-inexact-float".

Lemma is_nan_spec (f : float) :
  PrimFloat.is_nan f = true <-> Prim2SF f = S754_nan.
Proof.
  unfold PrimFloat.is_nan. rewrite FloatAxioms.eqb_spec. unfold SFeqb.
  split.
  - intro H. destruct (Prim2SF f) eqn:E; try reflexivity;
      rewrite SFcompare_self in H by congruence; discriminate.
  - intros ->. reflexivity.
Qed.

Lemma nan_not_below (f g : float) :
  PrimFloat.is_nan f = true -> (f <? g)%float = false.
Proof.
  intro H. apply is_nan_spec in H. rewrite ltb_spec. unfold SFltb.
  now rewrite H.
Qed.

Lemma div_nan (u d : float) :
  PrimFloat.is_nan d = true -> PrimFloat.is_nan (u / d) = true.
Proof.
  rewrite !is_nan_spec. intro H. rewrite div_spec, H.
  unfold SF64div, SFdiv. now destruct (Prim2SF u).
Qed.

Lemma mul_nan (u d : float) :
  PrimFloat.is_nan d = true -> PrimFloat.is_nan (u * d) = true.
Proof.
  rewrite !is_nan_spec. intro H. rewrite mul_spec, H.
  unfold SF64mul, SFmul. now destruct (Prim2SF u).
Qed.

Lemma add_nan (u d : float) :
  PrimFloat.is_nan d = true -> PrimFloat.is_nan (u + d) = true.
Proof.
  rewrite !is_nan_spec. intro H. rewrite add_spec, H.
  unfold SF64add, SFadd. now destruct (Prim2SF u).
Qed.

Lemma sub_nan (u d : float) :
  PrimFloat.is_nan d = true -> PrimFloat.is_nan (u - d) = true.
Proof.
  rewrite !is_nan_spec. intro H. rewrite sub_spec, H.
  unfold SF64sub, SFsub. now destruct (Prim2SF u).
Qed.

Local Open Scope qreal_scope.

(** X20. In binary64 the guard of [updateGeometry] lets a length that is
    not a number through, since no comparison with it holds: the layout
    runs, an end without cap gets its endpoint, and an end with an arrow
    head gets coordinates that are not numbers. *)
Theorem nan_length_is_laid_out (a : Arrow float) :
  PrimFloat.is_nan (length (mkQLineF (_p1 a) (_p2 a))) = true ->
  (_p1CapStyle a = NoCap -> Line_p1 (_line (updateGeometry a)) = _p1 a) /\
  (_p2CapStyle a = NoCap -> Line_p2 (_line (updateGeometry a)) = _p2 a) /\
  (_p1CapStyle a = ArrowCap -> _p1Arrow a <> None ->
     PrimFloat.is_nan (x (Line_p1 (_line (updateGeometry a)))) = true /\
     PrimFloat.is_nan (y (Line_p1 (_line (updateGeometry a)))) = true) /\
  (_p2CapStyle a = ArrowCap -> _p2Arrow a <> None ->
     PrimFloat.is_nan (x (Line_p2 (_line (updateGeometry a)))) = true /\
     PrimFloat.is_nan (y (Line_p2 (_line (updateGeometry a)))) = true).
Proof.
  intro N.
  pose proof (nan_not_below _ lit_0_0001 N) as G.
  destruct a as [c p1 p2 s1 s2 z1 z2 l i1 i2 e].
  unfold updateGeometry, getP1CapStyle, getP2CapStyle. cbv zeta.
  cbn [_p1 _p2 _p1CapStyle _p2CapStyle _p1Arrow _p2Arrow] in *.
  change (@qltb float binary64) with PrimFloat.ltb.
  rewrite G.
  split; [|split; [|split]].
  - intros ->. destruct s2, i2; reflexivity.
  - intros ->. destruct s1, i1; reflexivity.
  - intros -> I. destruct i1; [|congruence].
    destruct s2, i2; cbn; split; apply add_nan, mul_nan; now apply div_nan.
  - intros -> I. destruct i2; [|congruence].
    destruct s1, i1; cbn; split; apply add_nan, mul_nan, sub_nan;
      now apply div_nan.
Qed.

(** With the destination at (nan, 4): the plain end sits on the
    destination, the head end is nowhere. *)
Lemma nan_length_is_laid_out_witness :
  PrimFloat.is_nan (length (mkQLineF (pt 0 0) (pt nan 4))) = true /\
  Line_p2 (_line (updateGeometry arrow_nan)) = pt nan 4 /\
  PrimFloat.is_nan (x (Line_p1 (_line (updateGeometry arrow_nan)))) = true.
Proof.
  split; [reflexivity|].
  destruct (nan_length_is_laid_out arrow_nan eq_refl) as (_ & H2 & H1 & _).
  split; [exact (H2 eq_refl)|].
  apply H1; [reflexivity | discriminate].
Defined.

(** Taking the head off the source of the arrow from (0,0) to (3,4) puts
    the line's start back on (0,0). *)
Lemma setP1CapStyle_switches_witness :
  NoCap <> _p1CapStyle arrow345_plain_p2 /\
  (length (mkQLineF (pt 0 0) (pt 3 4)) <? lit_0_0001) = false /\
  Line_p1 (_line (setP1CapStyle NoCap arrow345_plain_p2)) = pt 0 0 /\
  _p1Arrow (setP1CapStyle NoCap arrow345_plain_p2) = None.
Proof.
  assert (H : NoCap <> _p1CapStyle arrow345_plain_p2) by discriminate.
  split; [exact H|]. split; [reflexivity|].
  exact (setP1CapStyle_switches arrow345_plain_p2 H eq_refl).
Defined.

(** Putting a head on its destination creates the item, dressed and
    placed, and truncates the line at parameter [1 - 2/5]. *)
Lemma setP2CapStyle_switches_witness :
  ArrowCap <> _p2CapStyle arrow345_plain_p2 /\
  (length (mkQLineF (pt 0 0) (pt 3 4)) <? lit_0_0001) = false /\
  Line_p2 (_line (setP2CapStyle ArrowCap arrow345_plain_p2))
  = pointAt (mkQLineF (pt 0 0) (pt 3 4)) (1 - 1 * 2 / 5)%float /\
  _p2Arrow (setP2CapStyle ArrowCap arrow345_plain_p2)
  = Some (placedAt (pt 3 4) (capRotation (mkQLineF (pt 0 0) (pt 3 4)))
            (dressed (capTriangleP2 1%float)
               (@new_ConvexPolygon float binary64))).
Proof.
  assert (H : ArrowCap <> _p2CapStyle arrow345_plain_p2) by discriminate.
  assert (G : (length (mkQLineF (pt 0 0) (pt 3 4)) <? lit_0_0001) = false)
    by reflexivity.
  split; [exact H|]. split; [exact G|].
  destruct (setP2CapStyle_switches arrow345_plain_p2 H G) as [E1 E2].
  split; [rewrite E1 | rewrite E2]; reflexivity.
Defined.

(** Widening the thin arrow to 10 lifts both caps from 4 to 5. *)
Lemma setLineWidth_never_lowers_caps_witness :
  _p1CapSize (setLineWidth 10%float arrow_thin) = 5%float /\
  _p2CapSize (setLineWidth 10%float arrow_thin) = 5%float /\
  (_p1CapSize (setLineWidth 10%float arrow_thin) <? 4%float) = false /\
  (_p2CapSize (setLineWidth 10%float arrow_thin) <? 4%float) = false.
Proof.
  exact (setLineWidth_never_lowers_caps (QO := binary64_order)
           10%float arrow_thin).
Defined.

(** Cap size 3 on the arrow of width 2. *)
Lemma setCapSize_twice_witness :
  qFuzzyCompare (#1 + qMax (getLineWidth arrow345 / #2) 3%float)
                (#1 + qMax (getLineWidth arrow345 / #2) 3%float) = true /\
  setP1CapSize 3%float (setP1CapSize 3%float arrow345)
  = setP1CapSize 3%float arrow345 /\
  setP2CapSize 3%float (setP2CapSize 3%float arrow345)
  = setP2CapSize 3%float arrow345.
Proof.
  split; [reflexivity|].
  exact (setCapSize_twice 3%float arrow345 eq_refl).
Defined.

End Binary64Layout.
